(** * FrequencySketch: the counting sketch of frequency_sketch.h

    A shallow embedding of the class template [FrequencySketch<T>] and the
    properties of its three public operations ([record_access],
    [get_frequency]/[has], [change_capacity]) and of the aging pass.

    Conventions of the embedding:
    - [uint64_t], [uint32_t] and [int] values are integers of [Z]; every
      conversion the C++ code performs is written out ([to_uint64],
      [to_uint32], [to_int]).  [long] is taken to be 64 bits wide (LP64), so
      that [0xfL << offset] and [1L << offset] are 64-bit shifts.
    - [std::vector<uint64_t> m_table] is a [list Z], read with stdpp's total
      lookup and written with stdpp's insert.  An index outside the table is
      undefined behaviour in C++; the model reads a fixed value (the one of
      the total lookup) and writes nothing there, and
      [get_table_index_in_range] shows that no operation gets there on a
      well-formed sketch.
    - member functions that are [const] are functions of the sketch; the
      mutating ones and the throwing one live in a small state-and-exception
      monad [M], in which a thrown exception leaves the object as it was at
      the [throw]. *)

From Stdlib Require Import ZArith Lia Bool String.
From stdpp Require Import base list.

Local Open Scope Z_scope.

(** ** Machine integers *)

Definition to_uint32 (x : Z) : Z := x mod 2 ^ 32.
Definition to_uint64 (x : Z) : Z := x mod 2 ^ 64.
(** Conversion to the 32-bit [int]: two's complement wrap-around. *)
Definition to_int (x : Z) : Z := (x + 2 ^ 31) mod 2 ^ 32 - 2 ^ 31.

Definition INT_MAX : Z := 2 ^ 31 - 1.

(** ** The object and the monad of its member functions *)

Record FrequencySketch : Type := Build_sketch {
  m_table : list Z;   (* std::vector<uint64_t> *)
  m_size : Z          (* int *)
}.

Inductive exception : Type :=
| invalid_argument (what : string).

Inductive outcome (A : Type) : Type :=
| Returned (a : A)
| Thrown (e : exception).
Arguments Returned {A} a.
Arguments Thrown {A} e.

Definition M (A : Type) : Type := FrequencySketch -> outcome A * FrequencySketch.

Definition ret {A : Type} (a : A) : M A := fun s => (Returned a, s).

Definition bind {A B : Type} (c : M A) (k : A -> M B) : M B :=
  fun s =>
    match c s with
    | (Returned a, s') => k a s'
    | (Thrown e, s') => (Thrown e, s')
    end.

Definition throw {A : Type} (e : exception) : M A := fun s => (Thrown e, s).
Definition gets {A : Type} (f : FrequencySketch -> A) : M A := fun s => (Returned (f s), s).
Definition modify (f : FrequencySketch -> FrequencySketch) : M unit :=
  fun s => (Returned tt, f s).

Notation "'let*' x := c 'in' k" := (bind c (fun x => k))
  (at level 10, x name, c at level 100, k at level 200).
Notation "c >> k" := (bind c (fun _ => k)) (at level 58, left associativity).

(** The object after running [c], and what [c] gave back. *)
Definition exec {A : Type} (c : M A) (s : FrequencySketch) : FrequencySketch := snd (c s).
Definition result {A : Type} (c : M A) (s : FrequencySketch) : outcome A := fst (c s).

Definition set_table (t : list Z) (s : FrequencySketch) : FrequencySketch :=
  {| m_table := t; m_size := m_size s |}.
Definition set_size (n : Z) (s : FrequencySketch) : FrequencySketch :=
  {| m_table := m_table s; m_size := n |}.

(** ** detail.h *)

(** Modelled from the spec: [detail::get_nearest_power_of_two] is declared in
    detail.h, which is not part of the sources at hand.  The spec gives its
    contract: "given a positive integer capacity, returns the smallest power
    of two >= capacity". *)
Definition get_nearest_power_of_two (x : Z) : Z := 2 ^ Z.log2_up x.

(** ** Protected member functions *)

(** [m_table.size()] and [m_table[index]]. *)
Definition table_size (s : FrequencySketch) : Z := Z.of_nat (length (m_table s)).
Definition table_at (s : FrequencySketch) (index : Z) : Z := m_table s !!! Z.to_nat index.

Definition SEEDS : list Z :=
  [ 0xc3a5c85c97cb3127; 0xb492b66fbe98f273; 0x9ae16a3b2f90404f; 0xcbf29ce484222325 ].

Definition get_table_index (s : FrequencySketch) (hash counter_index : Z) : Z :=
  let h := to_uint64 ((SEEDS !!! Z.to_nat counter_index) * hash) in
  let h := to_uint64 (h + Z.shiftr h 32) in
  to_int (Z.land h (to_uint64 (table_size s - 1))).

Definition get_offset_multiplier (hash : Z) : Z :=
  to_int (to_uint32 (Z.shiftl (Z.land hash 3) 2)).

Definition get_counter_offset (hash counter_index : Z) : Z :=
  to_int (Z.shiftl (get_offset_multiplier hash + counter_index) 2).

Definition get_count (s : FrequencySketch) (hash counter_index : Z) : Z :=
  let index := get_table_index s hash counter_index in
  let offset := get_counter_offset hash counter_index in
  to_int (Z.land (Z.shiftr (table_at s index) offset) 0xf).

Definition can_increment_counter (s : FrequencySketch) (table_index offset : Z) : bool :=
  let mask := to_uint64 (Z.shiftl 0xf offset) in
  negb (Z.land (table_at s table_index) mask =? mask).

(** [m_table[table_index] += 1L << offset]. *)
Definition add_at (table_index offset : Z) (s : FrequencySketch) : FrequencySketch :=
  set_table (<[Z.to_nat table_index := to_uint64 (table_at s table_index + Z.shiftl 1 offset)]>
               (m_table s)) s.

Definition try_increment_at (hash counter_index : Z) : M bool :=
  let* table_index := gets (fun s => get_table_index s hash counter_index) in
  let offset := get_counter_offset hash counter_index in
  let* can := gets (fun s => can_increment_counter s table_index offset) in
  if can then modify (add_at table_index offset) >> ret true
  else ret false.

Definition halve (counters : Z) : Z :=
  Z.land (Z.shiftr counters 1) 0x7777777777777777.

(** [m_size /= 2] is the division of [int], which truncates. *)
Definition reset : M unit :=
  modify (fun s => set_table (map halve (m_table s)) s) >>
  modify (fun s => set_size (Z.quot (m_size s) 2) s).

Definition get_sampling_size (s : FrequencySketch) : Z :=
  to_int (to_uint64 (table_size s * 10)).

(** ** Public member functions *)

Definition change_capacity (capacity : Z) : M unit :=
  if capacity <=? 0
  then throw (invalid_argument "FrequencySketch capacity must be larger than 0")
  else
    modify (fun s => set_table (resize (Z.to_nat (get_nearest_power_of_two capacity)) 0
                                       (m_table s)) s) >>
    modify (set_size 0).

(** The constructor runs [change_capacity] on the object whose vector is
    default-constructed (empty) and whose [m_size] is not initialised; its
    indeterminate value is [garbage].  An exception leaves no object. *)
Definition construct (garbage capacity : Z) : outcome FrequencySketch :=
  match change_capacity capacity {| m_table := []; m_size := garbage |} with
  | (Returned _, s) => Returned s
  | (Thrown e, _) => Thrown e
  end.

(** The loop [for(auto i = 0; i < 4; ++i)] of [get_frequency] and
    [record_access]: the body is run for [i = 0, 1, 2, 3] in this order. *)
Definition counter_indices : list Z := [0; 1; 2; 3].

(** [was_added |= try_increment_at(hash, i)]: the call is made whatever
    [was_added] holds. *)
Fixpoint increment_each (hash : Z) (idxs : list Z) (was_added : bool) : M bool :=
  match idxs with
  | [] => ret was_added
  | i :: rest =>
      let* added := try_increment_at hash i in
      increment_each hash rest (was_added || added)
  end.

(** [++m_size == get_sampling_size()]. *)
Definition bump_size_reaches_sample : M bool :=
  modify (fun s => set_size (to_int (m_size s + 1)) s) >>
  gets (fun s => m_size s =? get_sampling_size s).

Section Sketch.

(** [detail::get_hash] is declared in detail.h as well; the sketch is
    generic in the element type and in that function.  Whatever integer it
    returns is converted to [uint32_t] by the callers. *)
Variable T : Type.
Variable get_hash : T -> Z.

Definition hash_of (t : T) : Z := to_uint32 (get_hash t).

Definition get_frequency (s : FrequencySketch) (t : T) : Z :=
  let hash := hash_of t in
  let frequency := to_int (Z.shiftr (to_uint32 (-1)) 1) in
  fold_left (fun frequency i => Z.min frequency (get_count s hash i))
            counter_indices frequency.

Definition has (s : FrequencySketch) (t : T) : bool := 0 <? get_frequency s t.

Definition record_access (t : T) : M unit :=
  let hash := hash_of t in
  let* was_added := increment_each hash counter_indices false in
  if was_added then
    let* reached := bump_size_reaches_sample in
    if reached then reset else ret tt
  else ret tt.

End Sketch.

Arguments hash_of {T} get_hash t.
Arguments get_frequency {T} get_hash s t.
Arguments has {T} get_hash s t.
Arguments record_access {T} get_hash t.


(** ** Vocabulary of the properties *)

(** The [j]-th 4-bit counter of a 64-bit slot, [j] in 0..15: bits
    [4j .. 4j+3]. *)
Definition counter (w j : Z) : Z := Z.land (Z.shiftr w (4 * j)) 0xf.

(** Counter [j] of slot [n] of the table. *)
Definition counter_at (s : FrequencySketch) (n j : Z) : Z := counter (table_at s n) j.

(** The number, within its slot, of the counter that [get_counter_offset]
    addresses: the offset is four times this number. *)
Definition counter_number (hash counter_index : Z) : Z :=
  4 * Z.land hash 3 + counter_index.

(** Whether counter [k] of slot [n] is one of the counters of [hash] that
    the loop over [idxs] goes through. *)
Definition addressed (s : FrequencySketch) (hash : Z) (idxs : list Z) (n k : Z) : bool :=
  existsb (fun i => (get_table_index s hash i =? n) && (counter_number hash i =? k)) idxs.

(** The invariant of the table: a slot is a [uint64_t], and the table is not
    empty (the constructor refuses a capacity that is not positive) and has
    at most 2^31 slots (the power of two next to an [int] capacity), so that
    an index into it is an [int]. *)
Definition is_uint64 (w : Z) : Prop := 0 <= w < 2 ^ 64.

Definition wf_table (t : list Z) : Prop :=
  1 <= Z.of_nat (length t) <= 2 ^ 31 /\ Forall is_uint64 t.

(** The invariant of the object, for the tables of which the sampling size
    [m_table.size() * 10] is an [int]: the tally is below the sampling
    size. *)
Definition wf (s : FrequencySketch) : Prop :=
  wf_table (m_table s) /\
  table_size s * 10 <= INT_MAX /\
  0 <= m_size s < table_size s * 10.

(** What [record_access] computes on the way: the value of [was_added] after
    the loop, the object after the loop, and the condition under which
    [reset] is called. *)
Definition was_added_of (s : FrequencySketch) (hash : Z) : bool :=
  match result (increment_each hash counter_indices false) s with
  | Returned b => b
  | Thrown _ => false
  end.

Definition after_increments (s : FrequencySketch) (hash : Z) : FrequencySketch :=
  exec (increment_each hash counter_indices false) s.

Definition calls_reset (s : FrequencySketch) (hash : Z) : bool :=
  was_added_of s hash && (to_int (m_size s + 1) =? get_sampling_size s).

Section Runs.

Variable T : Type.
Variable get_hash : T -> Z.

(** The object after [record_access] of each element of [ts], in order. *)
Definition run (ts : list T) (s : FrequencySketch) : FrequencySketch :=
  fold_left (fun s t => exec (record_access get_hash t) s) ts s.

(** No call of the run calls [reset]. *)
Fixpoint aging_free (s : FrequencySketch) (ts : list T) : bool :=
  match ts with
  | [] => true
  | t :: rest =>
      negb (calls_reset s (hash_of get_hash t)) &&
      aging_free (exec (record_access get_hash t) s) rest
  end.

(** The number of calls of the run in which some counter was incremented. *)
Fixpoint count_added (s : FrequencySketch) (ts : list T) : Z :=
  match ts with
  | [] => 0
  | t :: rest =>
      (if was_added_of s (hash_of get_hash t) then 1 else 0) +
      count_added (exec (record_access get_hash t) s) rest
  end.

(** Two elements collide in a table when one of the four counters of the one
    is one of the four counters of the other. *)
Definition collide (s : FrequencySketch) (t t' : T) : bool :=
  existsb (fun i =>
    existsb (fun i' =>
      (get_table_index s (hash_of get_hash t) i =? get_table_index s (hash_of get_hash t') i') &&
      (get_counter_offset (hash_of get_hash t) i =? get_counter_offset (hash_of get_hash t') i'))
      counter_indices) counter_indices.

(** How many of the calls of a run are calls for [t]. *)
Definition times_recorded `{EqDecision T} (t : T) (ts : list T) : Z :=
  Z.of_nat (length (filter (fun t' => t' = t) ts)).

(** The object as the constructor leaves it, and as a call of
    [record_access] that has called [reset] leaves it. *)
Definition just_constructed (s : FrequencySketch) : Prop :=
  exists garbage capacity, construct garbage capacity = Returned s.

Definition just_aged (s : FrequencySketch) : Prop :=
  exists s0 t0,
    wf s0 /\ calls_reset s0 (hash_of get_hash t0) = true /\
    s = exec (record_access get_hash t0) s0.

(** The objects a program can have: the constructor and [change_capacity]
    are given a positive [int], and a [change_capacity] that throws leaves
    the object it was called on. *)
Inductive reachable : FrequencySketch -> Prop :=
| reach_construct (garbage capacity : Z) (s : FrequencySketch) :
    capacity <= INT_MAX ->
    construct garbage capacity = Returned s ->
    reachable s
| reach_record_access (s : FrequencySketch) (t : T) :
    reachable s ->
    reachable (exec (record_access get_hash t) s)
| reach_change_capacity (s : FrequencySketch) (capacity : Z) :
    reachable s ->
    0 < capacity <= INT_MAX ->
    reachable (exec (change_capacity capacity) s).

End Runs.

Arguments times_recorded {T _} t ts.
Arguments just_aged {T} get_hash s.
Arguments reachable {T} get_hash s.
Arguments run {T} get_hash ts s.
Arguments aging_free {T} get_hash s ts.
Arguments count_added {T} get_hash s ts.
Arguments collide {T} get_hash s t t'.

(** Objects and a hash function for the examples: a sketch of integers that
    are their own hash values. *)
Definition id_hash (x : Z) : Z := x.

(** [FrequencySketch<int>(1)], and the same after nine and after ten
    [record_access(0)]; the tenth call runs the aging pass. *)
Definition sketch_1 : FrequencySketch := {| m_table := [0]; m_size := 0 |}.
Definition sketch_1_nine : FrequencySketch := {| m_table := [0x9999]; m_size := 9 |}.
Definition sketch_1_aged : FrequencySketch := {| m_table := [0x5555]; m_size := 5 |}.

(** [FrequencySketch<int>(10)]. *)
Definition sketch_10 : FrequencySketch := {| m_table := replicate 16 0; m_size := 0 |}.

(** [FrequencySketch<int>(2)], and the same after fifteen [record_access(0)]
    and four [record_access(8)]: the tally is one short of the sampling size
    20, and of the four counters of 8 two are shared with 0 and are 15. *)
Definition sketch_2 : FrequencySketch := {| m_table := [0; 0]; m_size := 0 |}.
Definition sketch_2_used : FrequencySketch := {| m_table := [0xffff; 0x440]; m_size := 19 |}.

(** The reading of the increment under which, on every object a program can
    have, each counter of the element is one more after the call of
    [record_access] if it was below 15, and as it was if it was 15. *)
Definition increment_survives_every_call : Prop :=
  forall (T : Type) (get_hash : T -> Z) (s : FrequencySketch) (t : T) (i : Z),
    reachable get_hash s ->
    0 <= i < 4 ->
    get_count (exec (record_access get_hash t) s) (hash_of get_hash t) i =
    if get_count s (hash_of get_hash t) i <? 15
    then get_count s (hash_of get_hash t) i + 1
    else get_count s (hash_of get_hash t) i.

(** The reading of the aging period under which a full sample of
    [table_length * 10] counted calls lies between two aging passes, as
    between the construction and the first pass. *)
Definition aging_after_full_sample : Prop :=
  forall (T : Type) (get_hash : T -> Z) (s : FrequencySketch) (ts : list T) (t : T),
    wf s ->
    just_constructed s \/ just_aged get_hash s ->
    aging_free get_hash s ts = true ->
    calls_reset (run get_hash ts s) (hash_of get_hash t) = true ->
    count_added get_hash s (ts ++ [t]) = table_size s * 10.

(** * Properties *)

(** The invariants of an object that is written out, by computation. *)
Ltac wf_by_computation :=
  unfold wf, wf_table, is_uint64, table_size, INT_MAX; simpl;
  repeat first [ split | apply Forall_cons | apply Forall_nil ]; lia.

(** ** Integer conversions *)

Lemma to_int_small (x : Z) : 0 <= x < 2 ^ 31 -> to_int x = x.
Proof.
  intros H. unfold to_int. rewrite Z.mod_small; lia.
Qed.

Lemma to_uint64_small (x : Z) : 0 <= x < 2 ^ 64 -> to_uint64 x = x.
Proof. intros H. unfold to_uint64. now apply Z.mod_small. Qed.

Lemma to_uint32_small (x : Z) : 0 <= x < 2 ^ 32 -> to_uint32 x = x.
Proof. intros H. unfold to_uint32. now apply Z.mod_small. Qed.

(** A conjunction with a value that is not negative does not exceed it. *)
Lemma land_le_r (a b : Z) : 0 <= b -> 0 <= Z.land a b <= b.
Proof.
  intros Hb. split; [ apply Z.land_nonneg; now right |].
  assert (D : Z.land (Z.ldiff b a) (Z.land b a) = 0).
  { rewrite (Z.land_comm b a), Z.land_assoc, Z.land_ldiff. apply Z.land_0_l. }
  pose proof (Z.lor_ldiff_and b a) as E.
  rewrite <- Z.lxor_lor, <- Z.add_nocarry_lxor in E by exact D.
  assert (0 <= Z.ldiff b a) by (apply Z.ldiff_nonneg; now left).
  rewrite (Z.land_comm a b). lia.
Qed.

Lemma land_3_range (h : Z) : 0 <= Z.land h 3 < 4.
Proof.
  change 3 with (Z.ones 2). rewrite Z.land_ones by lia.
  apply Z.mod_pos_bound. lia.
Qed.

Lemma land_15_range (x : Z) : 0 <= Z.land x 0xf < 16.
Proof.
  change 0xf with (Z.ones 4). rewrite Z.land_ones by lia.
  apply Z.mod_pos_bound. lia.
Qed.

Lemma counter_range (w j : Z) : 0 <= counter w j < 16.
Proof. apply land_15_range. Qed.

Lemma get_offset_multiplier_eq (hash : Z) :
  get_offset_multiplier hash = 4 * Z.land hash 3.
Proof.
  unfold get_offset_multiplier. pose proof (land_3_range hash) as H.
  rewrite Z.shiftl_mul_pow2 by lia. change (2 ^ 2) with 4.
  rewrite to_uint32_small by lia. rewrite to_int_small by lia. lia.
Qed.

Lemma get_counter_offset_eq (hash i : Z) :
  0 <= i < 4 -> get_counter_offset hash i = 4 * counter_number hash i.
Proof.
  intros Hi. unfold get_counter_offset, counter_number.
  rewrite get_offset_multiplier_eq. pose proof (land_3_range hash) as H.
  rewrite Z.shiftl_mul_pow2 by lia. change (2 ^ 2) with 4.
  rewrite to_int_small by lia. lia.
Qed.

Lemma counter_number_range (hash i : Z) :
  0 <= i < 4 -> 0 <= counter_number hash i < 16.
Proof. intros Hi. unfold counter_number. pose proof (land_3_range hash). lia. Qed.

Lemma counter_number_inj (hash i i' : Z) :
  counter_number hash i = counter_number hash i' -> i = i'.
Proof. unfold counter_number. lia. Qed.

(** ** The counters of a slot *)

Lemma pow16_pos (j : Z) : 0 <= j -> 0 < 16 ^ j.
Proof. intros. apply Z.pow_pos_nonneg; lia. Qed.

Lemma pow2_4j (j : Z) : 0 <= j -> 2 ^ (4 * j) = 16 ^ j.
Proof. intros Hj. rewrite Z.pow_mul_r by lia. reflexivity. Qed.

Lemma pow16_succ (j : Z) : 0 <= j -> 16 ^ (j + 1) = 16 * 16 ^ j.
Proof. intros Hj. rewrite Z.pow_add_r by lia. lia. Qed.

(** The counter as a digit in base 16. *)
Lemma counter_digit (w j : Z) : 0 <= j -> counter w j = (w / 16 ^ j) mod 16.
Proof.
  intros Hj. unfold counter.
  rewrite Z.shiftr_div_pow2 by lia. rewrite pow2_4j by lia.
  change 0xf with (Z.ones 4). now rewrite Z.land_ones by lia.
Qed.

Lemma counter_testbit (w j n : Z) :
  0 <= j -> 0 <= n ->
  Z.testbit (counter w j) n = Z.testbit w (n + 4 * j) && (n <? 4).
Proof.
  intros Hj Hn. unfold counter. rewrite Z.land_spec, Z.shiftr_spec by lia.
  change 0xf with (Z.ones 4). now rewrite Z.testbit_ones_nonneg by lia.
Qed.

(** Truncation to 64 bits does not touch any of the 16 counters. *)
Lemma counter_to_uint64 (x j : Z) :
  0 <= j < 16 -> counter (to_uint64 x) j = counter x j.
Proof.
  intros Hj. apply Z.bits_inj'. intros n Hn.
  rewrite !counter_testbit by lia.
  destruct (n <? 4) eqn:E; [| now rewrite !andb_false_r ].
  apply Z.ltb_lt in E. unfold to_uint64.
  now rewrite Z.mod_pow2_bits_low by lia.
Qed.

Lemma to_uint64_range (x : Z) : is_uint64 (to_uint64 x).
Proof. unfold is_uint64, to_uint64. apply Z.mod_pos_bound. lia. Qed.

(** *** Adding [1 << 4j] to a slot whose counter [j] is below 15 *)

Lemma digit_add_same (w j : Z) :
  0 <= j -> (w / 16 ^ j) mod 16 < 15 ->
  ((w + 16 ^ j) / 16 ^ j) mod 16 = (w / 16 ^ j) mod 16 + 1.
Proof.
  intros Hj Hc. pose proof (pow16_pos j Hj) as HB.
  replace (w + 16 ^ j) with (w + 1 * 16 ^ j) by lia.
  rewrite Z.div_add by lia.
  pose proof (Z.mod_pos_bound (w / 16 ^ j) 16 ltac:(lia)) as Hr.
  rewrite Z.add_mod by lia. rewrite (Z.mod_small 1 16) by lia.
  rewrite Z.mod_small; lia.
Qed.

Lemma digit_add_below (w j k : Z) :
  0 <= k < j ->
  ((w + 16 ^ j) / 16 ^ k) mod 16 = (w / 16 ^ k) mod 16.
Proof.
  intros Hk. pose proof (pow16_pos k ltac:(lia)) as HB.
  replace (16 ^ j) with (16 * 16 ^ (j - k - 1) * 16 ^ k).
  - rewrite Z.div_add by lia.
    rewrite Z.add_mod by lia.
    replace (16 * 16 ^ (j - k - 1)) with (16 ^ (j - k - 1) * 16) by lia.
    rewrite Z.mod_mul by lia. rewrite Z.add_0_r. now rewrite Z.mod_mod by lia.
  - rewrite <- pow16_succ by lia. rewrite <- Z.pow_add_r by lia. f_equal. lia.
Qed.

Lemma digit_add_above (w j k : Z) :
  0 <= j < k -> (w / 16 ^ j) mod 16 < 15 ->
  (w + 16 ^ j) / 16 ^ k = w / 16 ^ k.
Proof.
  intros Hk Hc.
  pose proof (pow16_pos j ltac:(lia)) as HB.
  pose proof (pow16_pos (k - j - 1) ltac:(lia)) as HC.
  assert (E : 16 ^ k = 16 ^ j * 16 * 16 ^ (k - j - 1)).
  { replace (16 ^ j * 16) with (16 ^ (j + 1)) by (rewrite pow16_succ; lia).
    rewrite <- Z.pow_add_r by lia. f_equal. lia. }
  rewrite E. rewrite <- !Z.div_div by lia.
  f_equal.
  replace (w + 16 ^ j) with (w + 1 * 16 ^ j) by lia.
  rewrite Z.div_add by lia.
  set (q := w / 16 ^ j) in *.
  pose proof (Z.div_mod q 16 ltac:(lia)) as Hq.
  pose proof (Z.mod_pos_bound q 16 ltac:(lia)) as Hr.
  symmetry. apply Z.div_unique_pos with (r := q mod 16 + 1); lia.
Qed.

Lemma counter_add_same (w j : Z) :
  0 <= j < 16 -> counter w j < 15 ->
  counter (to_uint64 (w + Z.shiftl 1 (4 * j))) j = counter w j + 1.
Proof.
  intros Hj Hc. rewrite counter_to_uint64 by lia.
  rewrite Z.shiftl_mul_pow2, pow2_4j, Z.mul_1_l by lia.
  rewrite !counter_digit by lia. rewrite counter_digit in Hc by lia.
  now apply digit_add_same.
Qed.

Lemma counter_add_other (w j k : Z) :
  0 <= j < 16 -> 0 <= k < 16 -> k <> j -> counter w j < 15 ->
  counter (to_uint64 (w + Z.shiftl 1 (4 * j))) k = counter w k.
Proof.
  intros Hj Hk Hne Hc. rewrite counter_to_uint64 by lia.
  rewrite Z.shiftl_mul_pow2, pow2_4j, Z.mul_1_l by lia.
  rewrite !counter_digit by lia. rewrite counter_digit in Hc by lia.
  destruct (Z.lt_ge_cases k j).
  - apply digit_add_below. lia.
  - rewrite digit_add_above by lia. reflexivity.
Qed.

(** *** The guard of [can_increment_counter] *)

Lemma mask_uint64 (j : Z) :
  0 <= j < 16 -> to_uint64 (Z.shiftl 0xf (4 * j)) = Z.shiftl 0xf (4 * j).
Proof.
  intros Hj. apply to_uint64_small.
  rewrite Z.shiftl_mul_pow2, pow2_4j by lia.
  pose proof (pow16_pos j ltac:(lia)).
  assert (16 * 16 ^ j <= 2 ^ 64).
  { change (2 ^ 64) with (16 ^ 16). rewrite <- pow16_succ by lia.
    apply Z.pow_le_mono_r; lia. }
  lia.
Qed.

Lemma land_mask (w j : Z) :
  0 <= j -> Z.land w (Z.shiftl 0xf (4 * j)) = Z.shiftl (counter w j) (4 * j).
Proof.
  intros Hj. apply Z.bits_inj'. intros n Hn.
  rewrite Z.land_spec, !Z.shiftl_spec by lia.
  destruct (Z.lt_ge_cases n (4 * j)).
  - rewrite (Z.testbit_neg_r 0xf), (Z.testbit_neg_r (counter w j)) by lia.
    apply andb_false_r.
  - rewrite counter_testbit by lia.
    change 0xf with (Z.ones 4). rewrite Z.testbit_ones_nonneg by lia.
    do 2 f_equal. lia.
Qed.

Lemma shiftl_cancel (a b n : Z) : 0 <= n -> Z.shiftl a n = Z.shiftl b n -> a = b.
Proof.
  intros Hn E. apply (f_equal (fun x => Z.shiftr x n)) in E.
  rewrite !Z.shiftr_shiftl_l, Z.sub_diag in E by lia. exact E.
Qed.

Lemma guard_counter (w j : Z) :
  0 <= j < 16 ->
  negb (Z.land w (to_uint64 (Z.shiftl 0xf (4 * j))) =? to_uint64 (Z.shiftl 0xf (4 * j)))
  = (counter w j <? 15).
Proof.
  intros Hj. rewrite mask_uint64, land_mask by lia.
  pose proof (counter_range w j) as Hr.
  destruct (counter w j <? 15) eqn:E.
  - apply Z.ltb_lt in E. apply negb_true_iff, Z.eqb_neq. intros F.
    apply shiftl_cancel in F; lia.
  - apply Z.ltb_ge in E. apply negb_false_iff, Z.eqb_eq.
    replace (counter w j) with 15 by lia. reflexivity.
Qed.

(** *** [halve] *)

Lemma halve_mask_bit (j n : Z) :
  0 <= j < 16 -> 0 <= n < 4 ->
  Z.testbit 0x7777777777777777 (n + 4 * j) = (n <? 3).
Proof.
  intros Hj Hn.
  assert (Hj' : j = 0 \/ j = 1 \/ j = 2 \/ j = 3 \/ j = 4 \/ j = 5 \/ j = 6 \/ j = 7 \/
                j = 8 \/ j = 9 \/ j = 10 \/ j = 11 \/ j = 12 \/ j = 13 \/ j = 14 \/ j = 15)
    by lia.
  assert (Hn' : n = 0 \/ n = 1 \/ n = 2 \/ n = 3) by lia.
  repeat (destruct Hj' as [-> | Hj']); try subst j;
    repeat (destruct Hn' as [-> | Hn']); try subst n; reflexivity.
Qed.

Lemma halve_counter (w j : Z) :
  0 <= j < 16 -> counter (halve w) j = counter w j / 2.
Proof.
  intros Hj.
  replace (counter w j / 2) with (Z.shiftr (counter w j) 1)
    by (rewrite Z.shiftr_div_pow2 by lia; reflexivity).
  apply Z.bits_inj'. intros n Hn.
  rewrite Z.shiftr_spec by lia. rewrite !counter_testbit by lia.
  unfold halve. rewrite Z.land_spec, Z.shiftr_spec by lia.
  destruct (Z.lt_ge_cases n 4) as [Hlt | Hge].
  - rewrite halve_mask_bit by lia.
    replace (n + 4 * j + 1) with (n + 1 + 4 * j) by lia.
    replace (n <? 4) with true by (symmetry; apply Z.ltb_lt; lia).
    rewrite andb_true_r. f_equal.
    destruct (n <? 3) eqn:E1, (n + 1 <? 4) eqn:E2; try reflexivity;
      rewrite ?Z.ltb_lt, ?Z.ltb_ge in *; lia.
  - replace (n <? 4) with false by (symmetry; apply Z.ltb_ge; lia).
    replace (n + 1 <? 4) with false by (symmetry; apply Z.ltb_ge; lia).
    now rewrite !andb_false_r.
Qed.

Lemma halve_uint64 (w : Z) : is_uint64 (halve w).
Proof.
  unfold is_uint64, halve.
  pose proof (land_le_r (Z.shiftr w 1) 0x7777777777777777 ltac:(lia)). lia.
Qed.

(** ** Addressing *)

Lemma table_size_range (s : FrequencySketch) :
  wf_table (m_table s) -> 1 <= table_size s <= 2 ^ 31.
Proof. intros [H1 _]. unfold table_size. lia. Qed.

(** On a well-formed sketch every table access is within the table. *)
Lemma get_table_index_in_range (s : FrequencySketch) (hash i : Z) :
  wf_table (m_table s) -> 0 <= get_table_index s hash i < table_size s.
Proof.
  intros Hwf. pose proof (table_size_range s Hwf) as H1.
  unfold get_table_index.
  rewrite (to_uint64_small (table_size s - 1)) by lia.
  match goal with |- context [Z.land ?a ?b] => pose proof (land_le_r a b ltac:(lia)) as Hl end.
  rewrite to_int_small; lia.
Qed.

Lemma get_table_index_size (s s' : FrequencySketch) (hash i : Z) :
  table_size s' = table_size s -> get_table_index s' hash i = get_table_index s hash i.
Proof. intros E. unfold get_table_index. now rewrite E. Qed.

Lemma get_count_counter (s : FrequencySketch) (hash i : Z) :
  0 <= i < 4 ->
  get_count s hash i = counter_at s (get_table_index s hash i) (counter_number hash i).
Proof.
  intros Hi. unfold get_count, counter_at, counter.
  rewrite get_counter_offset_eq by lia.
  apply to_int_small. pose proof (land_15_range (Z.shiftr (table_at s (get_table_index s hash i)) (4 * counter_number hash i))). lia.
Qed.

Lemma can_increment_counter_counter (s : FrequencySketch) (hash i index : Z) :
  0 <= i < 4 ->
  can_increment_counter s index (get_counter_offset hash i)
  = (counter_at s index (counter_number hash i) <? 15).
Proof.
  intros Hi. unfold can_increment_counter, counter_at.
  rewrite get_counter_offset_eq by lia.
  apply guard_counter. now apply counter_number_range.
Qed.

Lemma addressed_size (s s' : FrequencySketch) (hash : Z) (idxs : list Z) (n k : Z) :
  table_size s' = table_size s -> addressed s' hash idxs n k = addressed s hash idxs n k.
Proof.
  intros E. unfold addressed. induction idxs as [| i rest IH]; simpl; [ reflexivity |].
  now rewrite IH, (get_table_index_size s s').
Qed.

(** ** [try_increment_at] *)

Lemma try_increment_at_run (hash i : Z) (s : FrequencySketch) :
  try_increment_at hash i s =
  let index := get_table_index s hash i in
  let offset := get_counter_offset hash i in
  if can_increment_counter s index offset
  then (Returned true, add_at index offset s)
  else (Returned false, s).
Proof.
  unfold try_increment_at, bind, gets, modify, ret. simpl.
  now destruct (can_increment_counter s _ _).
Qed.

Lemma add_at_size (index offset : Z) (s : FrequencySketch) :
  table_size (add_at index offset s) = table_size s /\
  m_size (add_at index offset s) = m_size s.
Proof. unfold add_at, table_size, set_table. simpl. now rewrite length_insert. Qed.

Lemma add_at_wf_table (index offset : Z) (s : FrequencySketch) :
  wf_table (m_table s) -> wf_table (m_table (add_at index offset s)).
Proof.
  intros [H1 H2]. unfold add_at, set_table, wf_table. simpl.
  rewrite length_insert. split; [ assumption |].
  apply Forall_insert; [ assumption | apply to_uint64_range ].
Qed.

Lemma add_at_counter_at (s : FrequencySketch) (index j n k : Z) :
  0 <= index < table_size s -> 0 <= j < 16 -> 0 <= n -> 0 <= k < 16 ->
  counter_at s index j < 15 ->
  counter_at (add_at index (4 * j) s) n k =
  counter_at s n k + (if (index =? n) && (j =? k) then 1 else 0).
Proof.
  intros Hin Hj Hn Hk Hc. unfold add_at, set_table, counter_at, table_at in *. simpl.
  unfold table_size in Hin.
  destruct (Z.eqb_spec index n) as [-> | Hne]; simpl.
  - rewrite list_lookup_total_insert_eq by lia.
    destruct (Z.eqb_spec j k) as [-> | Hjk]; simpl.
    + now apply counter_add_same.
    + rewrite counter_add_other by (assumption || lia). lia.
  - rewrite list_lookup_total_insert_ne by lia. lia.
Qed.

Lemma try_increment_at_size (hash i : Z) (s : FrequencySketch) :
  table_size (exec (try_increment_at hash i) s) = table_size s /\
  m_size (exec (try_increment_at hash i) s) = m_size s.
Proof.
  unfold exec. rewrite try_increment_at_run. simpl.
  destruct (can_increment_counter s _ _); simpl; [ apply add_at_size | easy ].
Qed.

Lemma try_increment_at_wf_table (hash i : Z) (s : FrequencySketch) :
  wf_table (m_table s) -> wf_table (m_table (exec (try_increment_at hash i) s)).
Proof.
  intros Hwf. unfold exec. rewrite try_increment_at_run. simpl.
  destruct (can_increment_counter s _ _); simpl; [ now apply add_at_wf_table | easy ].
Qed.

Lemma try_increment_at_result (hash i : Z) (s : FrequencySketch) :
  0 <= i < 4 ->
  result (try_increment_at hash i) s = Returned (get_count s hash i <? 15).
Proof.
  intros Hi. unfold result. rewrite try_increment_at_run. simpl.
  rewrite can_increment_counter_counter, get_count_counter by lia.
  now destruct (_ <? 15).
Qed.

(** The effect of one [try_increment_at] on every counter of the table. *)
Lemma try_increment_at_counter_at (hash i : Z) (s : FrequencySketch) (n k : Z) :
  wf_table (m_table s) -> 0 <= i < 4 -> 0 <= n -> 0 <= k < 16 ->
  counter_at (exec (try_increment_at hash i) s) n k =
  counter_at s n k +
  (if addressed s hash [i] n k && (counter_at s n k <? 15) then 1 else 0).
Proof.
  intros Hwf Hi Hn Hk. unfold exec. rewrite try_increment_at_run. simpl.
  rewrite can_increment_counter_counter by lia. rewrite orb_false_r.
  pose proof (get_table_index_in_range s hash i Hwf) as Hin.
  pose proof (counter_number_range hash i Hi) as Hj.
  destruct (counter_at s (get_table_index s hash i) (counter_number hash i) <? 15) eqn:E; simpl.
  - apply Z.ltb_lt in E. rewrite get_counter_offset_eq by lia.
    rewrite add_at_counter_at by (assumption || lia).
    destruct (Z.eqb_spec (get_table_index s hash i) n) as [<- | ?]; simpl; [| reflexivity ].
    destruct (Z.eqb_spec (counter_number hash i) k) as [<- | ?]; simpl; [| reflexivity ].
    now replace (_ <? 15) with true by (symmetry; now apply Z.ltb_lt).
  - destruct (Z.eqb_spec (get_table_index s hash i) n) as [<- | ?]; simpl; [| lia ].
    destruct (Z.eqb_spec (counter_number hash i) k) as [<- | ?]; simpl; [| lia ].
    rewrite E. lia.
Qed.

(** ** The loop of [record_access] *)

Lemma existsb_agree {A : Type} (f g : A -> bool) (l : list A) :
  (forall x, x ∈ l -> f x = g x) -> existsb f l = existsb g l.
Proof.
  induction l as [| a l IH]; intros H; simpl; [ reflexivity |].
  rewrite (H a) by apply list_elem_of_here.
  rewrite IH; [ reflexivity |]. intros x Hx. apply H. now apply list_elem_of_further.
Qed.

(** A counter that the loop has already gone through is not met again. *)
Lemma addressed_fresh (s : FrequencySketch) (hash i : Z) (rest : list Z) (n : Z) :
  i ∉ rest -> addressed s hash rest n (counter_number hash i) = false.
Proof.
  unfold addressed. induction rest as [| a rest IH]; intros Hi; simpl; [ reflexivity |].
  apply not_elem_of_cons in Hi as [Hne Hi].
  rewrite IH by assumption.
  destruct (Z.eqb_spec (counter_number hash a) (counter_number hash i)) as [E | _].
  - apply counter_number_inj in E. congruence.
  - now rewrite andb_false_r.
Qed.

Lemma get_count_try_increment_other (hash i i' : Z) (s : FrequencySketch) :
  wf_table (m_table s) -> 0 <= i < 4 -> 0 <= i' < 4 -> i <> i' ->
  get_count (exec (try_increment_at hash i) s) hash i' = get_count s hash i'.
Proof.
  intros Hwf Hi Hi' Hne.
  destruct (try_increment_at_size hash i s) as [Hsz _].
  rewrite !get_count_counter by lia. rewrite (get_table_index_size s) by assumption.
  pose proof (get_table_index_in_range s hash i' Hwf).
  rewrite try_increment_at_counter_at
    by (try assumption; try lia; now apply counter_number_range).
  unfold addressed. simpl.
  destruct (Z.eqb_spec (counter_number hash i) (counter_number hash i')) as [E | _].
  - apply counter_number_inj in E. congruence.
  - rewrite andb_false_r. simpl. lia.
Qed.

Lemma increment_each_spec (hash : Z) (idxs : list Z) :
  forall (was_added : bool) (s : FrequencySketch),
    wf_table (m_table s) -> Forall (fun i => 0 <= i < 4) idxs -> NoDup idxs ->
    exists s',
      increment_each hash idxs was_added s
      = (Returned (was_added || existsb (fun i => get_count s hash i <? 15) idxs), s') /\
      wf_table (m_table s') /\
      table_size s' = table_size s /\
      m_size s' = m_size s /\
      forall n k, 0 <= n -> 0 <= k < 16 ->
        counter_at s' n k =
        counter_at s n k +
        (if addressed s hash idxs n k && (counter_at s n k <? 15) then 1 else 0).
Proof.
  induction idxs as [| i rest IH]; intros acc s Hwf Hall Hnd.
  - exists s. simpl. rewrite orb_false_r.
    split; [ reflexivity | split; [ assumption | split; [ reflexivity | split; [ reflexivity |]]]].
    intros n k _ _. lia.
  - apply Forall_cons in Hall as [Hi Hall]. apply NoDup_cons in Hnd as [Hfresh Hnd].
    set (s1 := exec (try_increment_at hash i) s).
    destruct (try_increment_at_size hash i s) as [Hsz1 Hm1].
    pose proof (try_increment_at_wf_table hash i s Hwf) as Hwf1.
    destruct (IH (acc || (get_count s hash i <? 15)) s1 Hwf1 Hall Hnd)
      as (s' & Hrun & Hwf' & Hsz' & Hm' & Hcnt).
    exists s'. split; [| split; [ assumption | split; [| split ]]].
    + simpl. unfold bind.
      pose proof (try_increment_at_result hash i s Hi) as Hres.
      unfold result in Hres. fold s1 in Hsz1.
      destruct (try_increment_at hash i s) as [o s1'] eqn:E.
      simpl in Hres. subst o.
      replace s1' with s1 by (unfold s1, exec; now rewrite E).
      rewrite Hrun. f_equal. f_equal. rewrite <- orb_assoc. do 2 f_equal.
      apply existsb_agree. intros i' Hin.
      rewrite Forall_forall in Hall. pose proof (Hall i' Hin).
      unfold s1. rewrite get_count_try_increment_other; try assumption; try reflexivity.
      intros ->. contradiction.
    + fold s1 in Hsz1. congruence.
    + fold s1 in Hm1. congruence.
    + intros n k Hn Hk. rewrite Hcnt by assumption.
      fold s1 in Hsz1. rewrite (addressed_size s s1) by assumption.
      unfold s1. rewrite try_increment_at_counter_at by assumption.
      unfold addressed at 1 3. simpl. rewrite orb_false_r.
      fold (addressed s hash rest n k).
      destruct (Z.eqb_spec (get_table_index s hash i) n) as [En | _]; simpl.
      * destruct (Z.eqb_spec (counter_number hash i) k) as [Ek | _]; simpl.
        -- subst k. rewrite addressed_fresh by assumption. simpl. lia.
        -- now rewrite Z.add_0_r.
      * now rewrite Z.add_0_r.
Qed.

Lemma counter_indices_range : Forall (fun i => 0 <= i < 4) counter_indices.
Proof. unfold counter_indices. repeat constructor; lia. Qed.

Lemma counter_indices_NoDup : NoDup counter_indices.
Proof.
  unfold counter_indices.
  repeat (apply NoDup_cons; split; [ rewrite ?elem_of_cons, elem_of_nil; lia |]).
  apply NoDup_nil_2.
Qed.

Lemma counter_indices_elem (i : Z) : i ∈ counter_indices <-> 0 <= i < 4.
Proof. unfold counter_indices. rewrite ?elem_of_cons, elem_of_nil. lia. Qed.

(** The loop never throws, well-formed table or not. *)
Lemma increment_each_returns (hash : Z) (idxs : list Z) :
  forall (was_added : bool) (s : FrequencySketch),
    exists b s', increment_each hash idxs was_added s = (Returned b, s').
Proof.
  induction idxs as [| i rest IH]; intros acc s; simpl.
  - now exists acc, s.
  - unfold bind. rewrite try_increment_at_run. simpl.
    destruct (can_increment_counter s _ _); apply IH.
Qed.

(** The loop as [record_access] runs it. *)
Lemma after_increments_spec (s : FrequencySketch) (hash : Z) :
  wf_table (m_table s) ->
  increment_each hash counter_indices false s
  = (Returned (was_added_of s hash), after_increments s hash) /\
  was_added_of s hash = existsb (fun i => get_count s hash i <? 15) counter_indices /\
  wf_table (m_table (after_increments s hash)) /\
  table_size (after_increments s hash) = table_size s /\
  m_size (after_increments s hash) = m_size s /\
  forall n k, 0 <= n -> 0 <= k < 16 ->
    counter_at (after_increments s hash) n k =
    counter_at s n k +
    (if addressed s hash counter_indices n k && (counter_at s n k <? 15) then 1 else 0).
Proof.
  intros Hwf.
  destruct (increment_each_spec hash counter_indices false s Hwf
              counter_indices_range counter_indices_NoDup)
    as (s' & Hrun & Hwf' & Hsz & Hm & Hcnt).
  unfold was_added_of, after_increments, result, exec. rewrite Hrun. simpl.
  split; [ reflexivity | split; [ reflexivity |]]. tauto.
Qed.

Lemma increment_each_size (hash : Z) (idxs : list Z) :
  forall (was_added : bool) (s : FrequencySketch),
    table_size (exec (increment_each hash idxs was_added) s) = table_size s /\
    m_size (exec (increment_each hash idxs was_added) s) = m_size s.
Proof.
  induction idxs as [| i rest IH]; intros acc s; [ easy |].
  unfold exec. simpl. unfold bind. rewrite try_increment_at_run. simpl.
  destruct (can_increment_counter s _ _).
  - destruct (IH (acc || true) (add_at (get_table_index s hash i) (get_counter_offset hash i) s))
      as [H1 H2].
    destruct (add_at_size (get_table_index s hash i) (get_counter_offset hash i) s) as [H3 H4].
    unfold exec in *. split; congruence.
  - apply IH.
Qed.

(** When no counter could be incremented the loop has changed nothing. *)
Lemma increment_each_false (hash : Z) (idxs : list Z) :
  forall (was_added : bool) (s s' : FrequencySketch),
    increment_each hash idxs was_added s = (Returned false, s') ->
    was_added = false /\ s' = s.
Proof.
  induction idxs as [| i rest IH]; intros acc s s'; simpl.
  - unfold ret. intros [= -> ->]. easy.
  - unfold bind. rewrite try_increment_at_run. simpl.
    destruct (can_increment_counter s _ _); intros H; apply IH in H as [H1 H2].
    + rewrite orb_true_r in H1. discriminate.
    + rewrite orb_false_r in H1. easy.
Qed.

Lemma increments_run (s : FrequencySketch) (hash : Z) :
  increment_each hash counter_indices false s
  = (Returned (was_added_of s hash), after_increments s hash).
Proof.
  destruct (increment_each_returns hash counter_indices false s) as (b & s' & E).
  unfold was_added_of, after_increments, result, exec. now rewrite E.
Qed.

Lemma after_increments_size (s : FrequencySketch) (hash : Z) :
  table_size (after_increments s hash) = table_size s /\
  m_size (after_increments s hash) = m_size s.
Proof. apply increment_each_size. Qed.

Lemma not_added_unchanged (s : FrequencySketch) (hash : Z) :
  was_added_of s hash = false -> after_increments s hash = s.
Proof.
  intros H. pose proof (increments_run s hash) as E. rewrite H in E.
  now apply increment_each_false in E.
Qed.

Lemma get_sampling_size_int (s : FrequencySketch) :
  table_size s * 10 <= INT_MAX -> get_sampling_size s = table_size s * 10.
Proof.
  unfold INT_MAX. intros H2. assert (0 <= table_size s) by (unfold table_size; lia).
  unfold get_sampling_size. rewrite to_uint64_small by lia. apply to_int_small. lia.
Qed.

(** ** [reset] and [record_access], run *)

Lemma reset_run (s : FrequencySketch) :
  reset s = (Returned tt, {| m_table := map halve (m_table s); m_size := Z.quot (m_size s) 2 |}).
Proof. reflexivity. Qed.

Section RecordAccess.

Context {T : Type} (get_hash : T -> Z).

Lemma record_access_run (t : T) (s : FrequencySketch) :
  record_access get_hash t s =
  let hash := hash_of get_hash t in
  let s1 := after_increments s hash in
  if was_added_of s hash then
    if calls_reset s hash
    then (Returned tt, {| m_table := map halve (m_table s1);
                          m_size := Z.quot (to_int (m_size s + 1)) 2 |})
    else (Returned tt, {| m_table := m_table s1; m_size := to_int (m_size s + 1) |})
  else (Returned tt, s).
Proof.
  unfold record_access, bind. rewrite increments_run. cbv zeta.
  destruct (was_added_of s (hash_of get_hash t)) eqn:Ew.
  - unfold calls_reset. rewrite Ew. simpl.
    destruct (after_increments_size s (hash_of get_hash t)) as [Hsz Hm].
    unfold bump_size_reaches_sample, bind, modify, gets, set_size. simpl.
    unfold get_sampling_size, table_size in *. simpl. rewrite Hm, Hsz.
    now destruct (_ =? _).
  - unfold ret. now rewrite not_added_unchanged.
Qed.

(** [record_access] is [noexcept]: it returns on every object. *)
Lemma record_access_returns (t : T) (s : FrequencySketch) :
  result (record_access get_hash t) s = Returned tt.
Proof.
  unfold result. rewrite record_access_run. cbv zeta.
  now destruct (was_added_of s (hash_of get_hash t)), (calls_reset s (hash_of get_hash t)).
Qed.

Lemma halve_wf_table (tbl : list Z) : wf_table tbl -> wf_table (map halve tbl).
Proof.
  intros [H1 H2]. unfold wf_table. rewrite length_map. split; [ assumption |].
  apply Forall_fmap, Forall_true. intros w. apply halve_uint64.
Qed.

(** [record_access] keeps the class invariant. *)
Lemma record_access_wf (t : T) (s : FrequencySketch) :
  wf s -> wf (exec (record_access get_hash t) s).
Proof.
  intros (Hwf & H2 & Hm). unfold exec. rewrite record_access_run. cbv zeta.
  destruct (after_increments_spec s (hash_of get_hash t) Hwf)
    as (_ & _ & Hwf1 & Hsz1 & Hm1 & _).
  pose proof (table_size_range s Hwf) as H1.
  destruct (was_added_of s (hash_of get_hash t)) eqn:Ew; [| split; [| split ]; assumption ].
  unfold calls_reset. rewrite Ew. simpl.
  rewrite get_sampling_size_int by assumption.
  unfold INT_MAX in H2. rewrite to_int_small by lia.
  destruct (Z.eqb_spec (m_size s + 1) (table_size s * 10)) as [E | Hne]; simpl.
  - split; simpl; [ now apply halve_wf_table |].
    unfold table_size in *. simpl. rewrite length_map.
    rewrite Hsz1, E. unfold INT_MAX.
    rewrite Z.quot_div_nonneg by lia.
    replace (Z.of_nat (length (m_table s)) * 10) with (Z.of_nat (length (m_table s)) * 5 * 2) by lia.
    rewrite Z.div_mul by lia. lia.
  - split; simpl; [ assumption |].
    unfold table_size in *. simpl. rewrite Hsz1. unfold INT_MAX. lia.
Qed.

Lemma record_access_size (t : T) (s : FrequencySketch) :
  table_size (exec (record_access get_hash t) s) = table_size s.
Proof.
  unfold exec. rewrite record_access_run. cbv zeta.
  destruct (after_increments_size s (hash_of get_hash t)) as [Hsz _].
  destruct (was_added_of s (hash_of get_hash t)); [| reflexivity ].
  destruct (calls_reset s (hash_of get_hash t)); unfold table_size in *; simpl; rewrite ?length_map; assumption.
Qed.

End RecordAccess.

(** ** [get_frequency] and [has] *)

Lemma get_count_range (s : FrequencySketch) (hash i : Z) :
  0 <= i < 4 -> 0 <= get_count s hash i <= 15.
Proof.
  intros Hi. rewrite get_count_counter by assumption.
  pose proof (counter_range (table_at s (get_table_index s hash i)) (counter_number hash i)).
  unfold counter_at. lia.
Qed.

Lemma get_frequency_min {T : Type} (get_hash : T -> Z) (s : FrequencySketch) (t : T) :
  get_frequency get_hash s t =
  Z.min (Z.min (Z.min (get_count s (hash_of get_hash t) 0) (get_count s (hash_of get_hash t) 1))
               (get_count s (hash_of get_hash t) 2))
        (get_count s (hash_of get_hash t) 3).
Proof.
  unfold get_frequency, counter_indices. cbn [fold_left].
  change (to_int (Z.shiftr (to_uint32 (-1)) 1)) with 2147483647.
  pose proof (get_count_range s (hash_of get_hash t) 0 ltac:(lia)).
  rewrite (Z.min_r 2147483647) by lia. reflexivity.
Qed.

Lemma get_frequency_range {T : Type} (get_hash : T -> Z) (s : FrequencySketch) (t : T) :
  0 <= get_frequency get_hash s t <= 15.
Proof.
  rewrite get_frequency_min.
  pose proof (get_count_range s (hash_of get_hash t) 0 ltac:(lia)).
  pose proof (get_count_range s (hash_of get_hash t) 1 ltac:(lia)).
  pose proof (get_count_range s (hash_of get_hash t) 2 ltac:(lia)).
  pose proof (get_count_range s (hash_of get_hash t) 3 ltac:(lia)).
  lia.
Qed.

(** C3.  On every object and for every element, [get_frequency] is the minimum
    of the four 4-bit counters that the hash of the element addresses with the
    four seeds (counter [counter_number hash i] of slot
    [get_table_index s hash i], for [i] = 0, 1, 2, 3, which is what
    [get_count] reads).  It is a function of
    the object, which it cannot change.  The result is in 0..15, on every
    object and so after any number of [record_access] of the element, and
    [has] is true exactly when [get_frequency] is greater than 0. *)
Theorem get_frequency_is_min_of_counters
  {T : Type} (get_hash : T -> Z) (s : FrequencySketch) (t : T) :
  let hash := hash_of get_hash t in
  let c := fun i => counter_at s (get_table_index s hash i) (counter_number hash i) in
  map (get_count s hash) counter_indices = map c counter_indices /\
  get_frequency get_hash s t = Z.min (Z.min (Z.min (c 0) (c 1)) (c 2)) (c 3) /\
  0 <= get_frequency get_hash s t <= 15 /\
  (forall n : nat, 0 <= get_frequency get_hash (run get_hash (replicate n t) s) t <= 15) /\
  (has get_hash s t = true <-> get_frequency get_hash s t > 0).
Proof.
  cbv zeta. split; [| split; [| split; [| split ]]].
  - unfold counter_indices. cbn [map]. now rewrite !get_count_counter by lia.
  - rewrite get_frequency_min. now rewrite !get_count_counter by lia.
  - apply get_frequency_range.
  - intros n. apply get_frequency_range.
  - unfold has. rewrite Z.ltb_lt. lia.
Qed.

(** ** The aging pass *)

Lemma lookup_total_map (f : Z -> Z) (l : list Z) (i : nat) :
  (i < length l)%nat -> map f l !!! i = f (l !!! i).
Proof.
  revert i. induction l as [| a l IH]; intros i Hi; simpl in Hi; [ lia |].
  destruct i as [| i]; [ reflexivity |]. simpl. apply IH. lia.
Qed.

Lemma reset_counter_at (s : FrequencySketch) (n j : Z) :
  0 <= n < table_size s -> 0 <= j < 16 ->
  counter_at (exec reset s) n j = counter_at s n j / 2.
Proof.
  intros Hn Hj. unfold exec. rewrite reset_run. unfold counter_at, table_at, table_size in *.
  simpl. rewrite lookup_total_map by lia. now apply halve_counter.
Qed.

(** C4.  [halve] is the shift of the slot by one to the right, masked with
    0x7777777777777777, and it puts [c / 2], rounded down, in the place of
    each of the 16 counters [c] of the slot: no bit of a counter reaches the
    counter below it.  The aging pass [reset] does this to every slot of the
    table and divides the tally by two, as integers are divided (for a tally
    that is not negative that is the division rounded down). *)
Theorem aging_halves_every_counter (w : Z) (s : FrequencySketch) (n j : Z) :
  0 <= j < 16 ->
  0 <= n < table_size s ->
  halve w = Z.land (Z.shiftr w 1) 0x7777777777777777 /\
  counter (halve w) j = counter w j / 2 /\
  reset s = (Returned tt, {| m_table := map halve (m_table s);
                             m_size := Z.quot (m_size s) 2 |}) /\
  table_size (exec reset s) = table_size s /\
  counter_at (exec reset s) n j = counter_at s n j / 2 /\
  (0 <= m_size s -> m_size (exec reset s) = m_size s / 2).
Proof.
  intros Hj Hn. split; [ reflexivity |]. split; [ now apply halve_counter |].
  split; [ apply reset_run |]. split; [| split ].
  - unfold exec. rewrite reset_run. unfold table_size. simpl. now rewrite length_map.
  - now apply reset_counter_at.
  - intros Hm. unfold exec. rewrite reset_run. simpl. apply Z.quot_div_nonneg; lia.
Qed.

(** ** One increment *)

(** C10.  A call of [try_increment_at] that finds its counter below 15
    returns true, adds one to that counter and leaves every other counter of
    the table as it was: the other 15 counters of the same slot keep their
    values (adding [1 << offset] to a counter below 15 carries into no
    neighbour), every other slot is the same word as before, and the length
    of the table and the tally are unchanged. *)
Theorem increment_touches_one_counter (s : FrequencySketch) (hash i : Z) :
  wf_table (m_table s) ->
  0 <= i < 4 ->
  get_count s hash i < 15 ->
  let index := get_table_index s hash i in
  let j := counter_number hash i in
  let s' := exec (try_increment_at hash i) s in
  result (try_increment_at hash i) s = Returned true /\
  get_counter_offset hash i = 4 * j /\
  counter_at s' index j = counter_at s index j + 1 /\
  (forall k, 0 <= k < 16 -> k <> j -> counter_at s' index k = counter_at s index k) /\
  (forall n, 0 <= n -> n <> index -> table_at s' n = table_at s n) /\
  table_size s' = table_size s /\
  m_size s' = m_size s.
Proof.
  intros Hwf Hi Hc. cbv zeta.
  pose proof (get_table_index_in_range s hash i Hwf) as Hin.
  pose proof (counter_number_range hash i Hi) as Hj.
  assert (Hc' : counter_at s (get_table_index s hash i) (counter_number hash i) < 15)
    by now rewrite <- get_count_counter.
  split; [| split; [| split; [| split; [| split ]]]].
  - rewrite try_increment_at_result by assumption.
    now replace (_ <? 15) with true by (symmetry; now apply Z.ltb_lt).
  - now apply get_counter_offset_eq.
  - rewrite try_increment_at_counter_at by (assumption || lia).
    unfold addressed. simpl. rewrite !Z.eqb_refl. simpl.
    now replace (_ <? 15) with true by (symmetry; now apply Z.ltb_lt).
  - intros k Hk Hne. rewrite try_increment_at_counter_at by (assumption || lia).
    unfold addressed. simpl.
    replace (counter_number hash i =? k) with false by (symmetry; apply Z.eqb_neq; lia).
    rewrite andb_false_r. simpl. lia.
  - intros n Hn Hne. unfold exec. rewrite try_increment_at_run. simpl.
    destruct (can_increment_counter s _ _); [| reflexivity ].
    unfold table_at, add_at, set_table. simpl.
    apply list_lookup_total_insert_ne. lia.
  - apply try_increment_at_size.
Qed.

(** ** What [record_access] does to the counters *)

Lemma counter_at_table (s s' : FrequencySketch) (n j : Z) :
  m_table s' = m_table s -> counter_at s' n j = counter_at s n j.
Proof. intros E. unfold counter_at, table_at. now rewrite E. Qed.

Lemma counter_at_halved (s s' : FrequencySketch) (n j : Z) :
  m_table s' = map halve (m_table s) ->
  0 <= n < table_size s -> 0 <= j < 16 ->
  counter_at s' n j = counter_at s n j / 2.
Proof.
  intros E Hn Hj. unfold counter_at, table_at, table_size in *. rewrite E.
  rewrite lookup_total_map by lia. now apply halve_counter.
Qed.

Lemma table_size_table (s s' : FrequencySketch) :
  m_table s' = m_table s -> table_size s' = table_size s.
Proof. intros E. unfold table_size. now rewrite E. Qed.

Section Counters.

Context {T : Type} (get_hash : T -> Z).

(** The table after [record_access]: the table after the loop, halved if
    [reset] was called. *)
Lemma record_access_table (t : T) (s : FrequencySketch) :
  m_table (exec (record_access get_hash t) s) =
  if calls_reset s (hash_of get_hash t)
  then map halve (m_table (after_increments s (hash_of get_hash t)))
  else m_table (after_increments s (hash_of get_hash t)).
Proof.
  unfold exec. rewrite record_access_run. cbv zeta. unfold calls_reset.
  destruct (was_added_of s (hash_of get_hash t)) eqn:Ew; simpl.
  - now destruct (_ =? _).
  - now rewrite not_added_unchanged.
Qed.

Lemma record_access_wf_table (t : T) (s : FrequencySketch) :
  wf_table (m_table s) -> wf_table (m_table (exec (record_access get_hash t) s)).
Proof.
  intros Hwf. rewrite record_access_table.
  destruct (after_increments_spec s (hash_of get_hash t) Hwf) as (_ & _ & Hwf1 & _).
  destruct (calls_reset s _); [ now apply halve_wf_table | assumption ].
Qed.

(** Each of the counters that [hash] addresses, after [record_access] of an
    element [t]: one more if it is a counter of [t] below 15, and half of
    that if [reset] was called. *)
Lemma record_access_get_count (t : T) (s : FrequencySketch) (hash i : Z) :
  wf_table (m_table s) -> 0 <= i < 4 ->
  get_count (exec (record_access get_hash t) s) hash i =
  let c := get_count s hash i in
  let c' := c + (if addressed s (hash_of get_hash t) counter_indices
                      (get_table_index s hash i) (counter_number hash i)
                    && (c <? 15) then 1 else 0) in
  if calls_reset s (hash_of get_hash t) then c' / 2 else c'.
Proof.
  intros Hwf Hi. cbv zeta.
  destruct (after_increments_spec s (hash_of get_hash t) Hwf)
    as (_ & _ & Hwf1 & Hsz1 & _ & Hcnt).
  pose proof (get_table_index_in_range s hash i Hwf) as Hin.
  pose proof (counter_number_range hash i Hi) as Hj.
  pose proof (record_access_table t s) as Htbl.
  rewrite !get_count_counter by assumption.
  rewrite (get_table_index_size s) by apply record_access_size.
  rewrite <- Hcnt by lia.
  destruct (calls_reset s (hash_of get_hash t)).
  - apply counter_at_halved; [ assumption | lia | assumption ].
  - now apply counter_at_table.
Qed.

Lemma addressed_own (s : FrequencySketch) (hash i : Z) :
  0 <= i < 4 ->
  addressed s hash counter_indices (get_table_index s hash i) (counter_number hash i) = true.
Proof.
  intros Hi. unfold addressed. apply existsb_exists. exists i. split.
  - apply list_elem_of_In, counter_indices_elem. lia.
  - now rewrite !Z.eqb_refl.
Qed.

Lemma collide_size (s s' : FrequencySketch) (t t' : T) :
  table_size s' = table_size s -> collide get_hash s' t t' = collide get_hash s t t'.
Proof.
  intros E. unfold collide.
  apply existsb_agree. intros i _. apply existsb_agree. intros i' _.
  now rewrite !(get_table_index_size s s') by assumption.
Qed.

Lemma collide_false_addressed (s : FrequencySketch) (t t' : T) (i : Z) :
  0 <= i < 4 -> collide get_hash s t t' = false ->
  addressed s (hash_of get_hash t') counter_indices
            (get_table_index s (hash_of get_hash t) i)
            (counter_number (hash_of get_hash t) i) = false.
Proof.
  intros Hi Hc. apply not_true_is_false. intros Ha.
  unfold addressed in Ha. apply existsb_exists in Ha as (i' & Hin' & Ha).
  apply list_elem_of_In, counter_indices_elem in Hin'.
  apply andb_true_iff in Ha as [E1 E2]. apply Z.eqb_eq in E1, E2.
  enough (collide get_hash s t t' = true) by congruence.
  unfold collide. apply existsb_exists. exists i. split.
  { apply list_elem_of_In, counter_indices_elem. lia. }
  apply existsb_exists. exists i'. split.
  { apply list_elem_of_In, counter_indices_elem. lia. }
  rewrite !get_counter_offset_eq by lia. rewrite E1, E2, !Z.eqb_refl. reflexivity.
Qed.

(** C5, amended.  In [record_access], each of the four counters of the
    element is incremented by exactly 1 if it is below 15 and left at 15 if
    it is 15: that is the object after the loop of the four
    [try_increment_at].  In a call that does not go on to the aging pass it
    is the object after [record_access]; in a call that does, the table after
    [record_access] is that table halved, and the counter is half of its
    value after the loop, rounded down.  [record_access] returns; it throws
    on no input. *)
Theorem record_access_increments_saturating
  (s : FrequencySketch) (t : T) (i : Z) :
  wf_table (m_table s) ->
  0 <= i < 4 ->
  let hash := hash_of get_hash t in
  let c := get_count s hash i in
  result (record_access get_hash t) s = Returned tt /\
  (c < 15 -> get_count (after_increments s hash) hash i = c + 1) /\
  (c = 15 -> get_count (after_increments s hash) hash i = 15) /\
  (calls_reset s hash = false ->
   m_table (exec (record_access get_hash t) s) = m_table (after_increments s hash) /\
   (c < 15 -> get_count (exec (record_access get_hash t) s) hash i = c + 1) /\
   (c = 15 -> get_count (exec (record_access get_hash t) s) hash i = 15)) /\
  (calls_reset s hash = true ->
   m_table (exec (record_access get_hash t) s)
   = map halve (m_table (after_increments s hash)) /\
   get_count (exec (record_access get_hash t) s) hash i
   = get_count (after_increments s hash) hash i / 2).
Proof.
  intros Hwf Hi. cbv zeta.
  destruct (after_increments_spec s (hash_of get_hash t) Hwf)
    as (_ & _ & Hwf1 & Hsz1 & _ & Hcnt).
  pose proof (get_table_index_in_range s (hash_of get_hash t) i Hwf) as Hin.
  pose proof (counter_number_range (hash_of get_hash t) i Hi) as Hj.
  assert (Hloop : get_count (after_increments s (hash_of get_hash t)) (hash_of get_hash t) i
                  = get_count s (hash_of get_hash t) i
                    + (if get_count s (hash_of get_hash t) i <? 15 then 1 else 0)).
  { rewrite !get_count_counter by assumption.
    rewrite (get_table_index_size s) by assumption.
    rewrite Hcnt by lia. now rewrite addressed_own by assumption. }
  split; [ apply record_access_returns |].
  split; [| split; [| split ]].
  - intros Hc. rewrite Hloop.
    now replace (_ <? 15) with true by (symmetry; now apply Z.ltb_lt).
  - intros Hc. rewrite Hloop, Hc. reflexivity.
  - intros Hnr. pose proof (record_access_get_count t s (hash_of get_hash t) i Hwf Hi) as Hg.
    cbv zeta in Hg. rewrite Hnr, addressed_own in Hg by assumption. simpl in Hg.
    split; [| split ].
    + rewrite record_access_table. now rewrite Hnr.
    + intros Hc. rewrite Hg.
      now replace (_ <? 15) with true by (symmetry; now apply Z.ltb_lt).
    + intros Hc. rewrite Hg, Hc. reflexivity.
  - intros Hr. pose proof (record_access_get_count t s (hash_of get_hash t) i Hwf Hi) as Hg.
    cbv zeta in Hg. rewrite Hr, addressed_own in Hg by assumption. simpl in Hg.
    split.
    + rewrite record_access_table. now rewrite Hr.
    + now rewrite Hg, Hloop.
Qed.

(** C7.  A call of [record_access], for the same element or for another,
    that does not call [reset] does not lower the estimate of any element. *)
Theorem record_access_monotone (s : FrequencySketch) (t t' : T) :
  wf_table (m_table s) ->
  calls_reset s (hash_of get_hash t') = false ->
  get_frequency get_hash s t <= get_frequency get_hash (exec (record_access get_hash t') s) t.
Proof.
  intros Hwf Hnr. rewrite !get_frequency_min.
  assert (H : forall i, 0 <= i < 4 ->
            get_count s (hash_of get_hash t) i
            <= get_count (exec (record_access get_hash t') s) (hash_of get_hash t) i).
  { intros i Hi. rewrite record_access_get_count by assumption. cbv zeta. rewrite Hnr.
    destruct (_ && _); lia. }
  pose proof (H 0 ltac:(lia)). pose proof (H 1 ltac:(lia)).
  pose proof (H 2 ltac:(lia)). pose proof (H 3 ltac:(lia)). lia.
Qed.

End Counters.

(** ** Construction and [change_capacity] *)

Lemma change_capacity_run (capacity : Z) (s : FrequencySketch) :
  change_capacity capacity s =
  if capacity <=? 0
  then (Thrown (invalid_argument "FrequencySketch capacity must be larger than 0"), s)
  else (Returned tt,
        {| m_table := resize (Z.to_nat (get_nearest_power_of_two capacity)) 0 (m_table s);
           m_size := 0 |}).
Proof. unfold change_capacity. now destruct (capacity <=? 0). Qed.

Lemma construct_run (garbage capacity : Z) :
  construct garbage capacity =
  if capacity <=? 0
  then Thrown (invalid_argument "FrequencySketch capacity must be larger than 0")
  else Returned {| m_table := replicate (Z.to_nat (get_nearest_power_of_two capacity)) 0;
                   m_size := 0 |}.
Proof.
  unfold construct. rewrite change_capacity_run.
  destruct (capacity <=? 0); [ reflexivity |]. simpl. now rewrite resize_nil.
Qed.

(** The model of [get_nearest_power_of_two] meets the contract the spec
    gives: a power of two, not below the capacity, and the smallest such. *)
Lemma get_nearest_power_of_two_spec (capacity : Z) :
  0 < capacity ->
  get_nearest_power_of_two capacity = 2 ^ Z.log2_up capacity /\
  0 <= Z.log2_up capacity /\
  capacity <= get_nearest_power_of_two capacity /\
  forall k, 0 <= k -> capacity <= 2 ^ k -> get_nearest_power_of_two capacity <= 2 ^ k.
Proof.
  intros Hc. unfold get_nearest_power_of_two.
  split; [ reflexivity |]. split; [ apply Z.log2_up_nonneg |]. split.
  - destruct (Z.eq_dec capacity 1) as [-> | Hne]; [ reflexivity |].
    apply Z.log2_up_spec. lia.
  - intros k Hk Hle. apply Z.pow_le_mono_r; [ lia |].
    now apply Z.log2_up_le_pow2.
Qed.

Lemma get_nearest_power_of_two_pos (capacity : Z) :
  1 <= get_nearest_power_of_two capacity.
Proof.
  unfold get_nearest_power_of_two.
  pose proof (Z.log2_up_nonneg capacity).
  pose proof (Z.pow_pos_nonneg 2 (Z.log2_up capacity) ltac:(lia) ltac:(lia)). lia.
Qed.

Lemma counter_zero (j : Z) : counter 0 j = 0.
Proof. unfold counter. now rewrite Z.shiftr_0_l. Qed.

Lemma constructed_wf_table (garbage capacity : Z) (s : FrequencySketch) :
  construct garbage capacity = Returned s ->
  capacity <= INT_MAX ->
  0 < capacity /\
  s = {| m_table := replicate (Z.to_nat (get_nearest_power_of_two capacity)) 0; m_size := 0 |} /\
  table_size s = get_nearest_power_of_two capacity /\
  wf_table (m_table s).
Proof.
  rewrite construct_run. destruct (Z.leb_spec capacity 0) as [| Hpos]; [ discriminate |].
  intros [= <-] Hmax. split; [ assumption |]. split; [ reflexivity |].
  pose proof (get_nearest_power_of_two_pos capacity) as Hn.
  unfold table_size, wf_table. simpl. rewrite length_replicate.
  rewrite Z2Nat.id by lia. split; [ reflexivity |]. split.
  - split; [ assumption |].
    apply (get_nearest_power_of_two_spec capacity Hpos); unfold INT_MAX in Hmax; lia.
  - apply Forall_replicate. unfold is_uint64. lia.
Qed.

Lemma replicate_zero_counter_at (n : nat) (m idx j : Z) :
  0 <= idx < Z.of_nat n ->
  counter_at {| m_table := replicate n 0; m_size := m |} idx j = 0.
Proof.
  intros Hidx. unfold counter_at, table_at. simpl.
  rewrite lookup_total_replicate_2 by lia. apply counter_zero.
Qed.

Lemma change_capacity_wf_table (capacity : Z) (s : FrequencySketch) :
  0 < capacity <= INT_MAX ->
  wf_table (m_table s) ->
  wf_table (m_table (exec (change_capacity capacity) s)).
Proof.
  intros [Hpos Hmax] [_ Hall]. unfold exec. rewrite change_capacity_run.
  destruct (Z.leb_spec capacity 0); [ lia |]. unfold wf_table. simpl.
  pose proof (get_nearest_power_of_two_pos capacity) as Hn.
  rewrite length_resize, Z2Nat.id by lia. split.
  - split; [ assumption |].
    apply (get_nearest_power_of_two_spec capacity Hpos); unfold INT_MAX in Hmax; lia.
  - apply Forall_resize; [ unfold is_uint64; lia | assumption ].
Qed.

(** The invariant of the table holds of every object a program can have. *)
Lemma reachable_wf_table {T : Type} (get_hash : T -> Z) (s : FrequencySketch) :
  reachable get_hash s -> wf_table (m_table s).
Proof.
  induction 1 as [garbage capacity s Hmax Hc | s t _ IH | s capacity _ IH Hcap].
  - now apply (constructed_wf_table garbage capacity s Hc Hmax).
  - now apply record_access_wf_table.
  - now apply change_capacity_wf_table.
Qed.

(** ** Exact counts on a fresh sketch *)

Section Exact.

Context {T : Type} `{EqDecision T} (get_hash : T -> Z).

Lemma times_recorded_nonneg (t : T) (ts : list T) : 0 <= times_recorded t ts.
Proof. unfold times_recorded. lia. Qed.

Lemma times_recorded_cons (t t' : T) (ts : list T) :
  times_recorded t (t' :: ts) = (if decide (t' = t) then 1 else 0) + times_recorded t ts.
Proof.
  unfold times_recorded. destruct (decide (t' = t)) as [E | E].
  - rewrite filter_cons_True by assumption. simpl. lia.
  - rewrite filter_cons_False by assumption. lia.
Qed.

(** Along a run without aging pass in which every call is for [t] or for an
    element that does not collide with [t], each counter of [t] counts the
    calls for [t], up to 15. *)
Lemma run_get_count (t : T) (ts : list T) :
  forall s : FrequencySketch,
    wf_table (m_table s) ->
    aging_free get_hash s ts = true ->
    (forall t', t' ∈ ts -> t' = t \/ collide get_hash s t t' = false) ->
    forall i, 0 <= i < 4 ->
      get_count (run get_hash ts s) (hash_of get_hash t) i =
      Z.min 15 (get_count s (hash_of get_hash t) i + times_recorded t ts).
Proof.
  induction ts as [| t' rest IH]; intros s Hwf Hfree Hcol i Hi.
  - unfold times_recorded. simpl.
    pose proof (get_count_range s (hash_of get_hash t) i Hi). lia.
  - simpl in Hfree. apply andb_true_iff in Hfree as [Hnr Hfree].
    apply negb_true_iff in Hnr.
    change (run get_hash (t' :: rest) s)
      with (run get_hash rest (exec (record_access get_hash t') s)).
    rewrite IH; try assumption.
    + rewrite record_access_get_count by assumption. cbv zeta. rewrite Hnr.
      rewrite times_recorded_cons.
      pose proof (get_count_range s (hash_of get_hash t) i Hi) as Hr.
      pose proof (times_recorded_nonneg t rest) as Hk.
      destruct (decide (t' = t)) as [-> | Hne].
      * rewrite addressed_own by assumption. simpl.
        destruct (Z.ltb_spec (get_count s (hash_of get_hash t) i) 15); lia.
      * destruct (Hcol t' (list_elem_of_here _ _)) as [? | Hc]; [ contradiction |].
        rewrite (collide_false_addressed get_hash s t t' i Hi Hc). simpl. lia.
    + now apply record_access_wf_table.
    + intros t'' Hin. rewrite (collide_size get_hash s) by apply record_access_size.
      apply Hcol. now apply list_elem_of_further.
Qed.

(** C6.  On a sketch as the constructor leaves it, after a run of
    [record_access] calls in which no aging pass is triggered and every call
    is for [t] or for an element none of whose counters is a counter of [t],
    [get_frequency] of [t] is the number [k] of calls for [t], for every
    [k] from 0 to 15. *)
Theorem fresh_sketch_counts_exactly
  (garbage capacity : Z) (s0 : FrequencySketch) (t : T) (ts : list T) :
  capacity <= INT_MAX ->
  construct garbage capacity = Returned s0 ->
  aging_free get_hash s0 ts = true ->
  (forall t', t' ∈ ts -> t' = t \/ collide get_hash s0 t t' = false) ->
  times_recorded t ts <= 15 ->
  get_frequency get_hash (run get_hash ts s0) t = times_recorded t ts.
Proof.
  intros Hmax Hc Hfree Hcol Hk.
  destruct (constructed_wf_table garbage capacity s0 Hc Hmax) as (_ & Es & _ & Hwf).
  pose proof (times_recorded_nonneg t ts) as Hk0.
  assert (H : forall i, 0 <= i < 4 ->
            get_count (run get_hash ts s0) (hash_of get_hash t) i = times_recorded t ts).
  { intros i Hi. rewrite (run_get_count t ts s0) by assumption.
    rewrite get_count_counter by assumption.
    pose proof (get_table_index_in_range s0 (hash_of get_hash t) i Hwf) as Hin.
    revert Hin. generalize (get_table_index s0 (hash_of get_hash t) i). intros idx Hin.
    rewrite Es in Hin |- *. unfold table_size in Hin. simpl in Hin.
    rewrite length_replicate in Hin.
    rewrite replicate_zero_counter_at by assumption. lia. }
  rewrite get_frequency_min, !H by lia. lia.
Qed.

End Exact.

(** ** The tally and the aging pass *)

Section Aging.

Context {T : Type} (get_hash : T -> Z).

Lemma was_added_iff (s : FrequencySketch) (hash : Z) :
  wf_table (m_table s) ->
  was_added_of s hash = true <-> exists i, 0 <= i < 4 /\ get_count s hash i < 15.
Proof.
  intros Hwf. destruct (after_increments_spec s hash Hwf) as (_ & -> & _).
  rewrite existsb_exists. split.
  - intros (i & Hin & Hlt). exists i.
    apply list_elem_of_In, counter_indices_elem in Hin. apply Z.ltb_lt in Hlt. easy.
  - intros (i & Hi & Hlt). exists i. split.
    + now apply list_elem_of_In, counter_indices_elem.
    + now apply Z.ltb_lt.
Qed.

Lemma calls_reset_iff (s : FrequencySketch) (hash : Z) :
  wf s ->
  calls_reset s hash = true <->
  was_added_of s hash = true /\ m_size s + 1 = table_size s * 10.
Proof.
  intros (Hwf & H2 & Hm). unfold calls_reset.
  rewrite get_sampling_size_int by assumption.
  unfold INT_MAX in H2. rewrite to_int_small by lia.
  rewrite andb_true_iff, Z.eqb_eq. reflexivity.
Qed.

(** The tally after [record_access]. *)
Lemma record_access_tally (t : T) (s : FrequencySketch) :
  wf s ->
  m_size (exec (record_access get_hash t) s) =
  if was_added_of s (hash_of get_hash t)
  then if calls_reset s (hash_of get_hash t) then table_size s * 5 else m_size s + 1
  else m_size s.
Proof.
  intros Hwf. pose proof (calls_reset_iff s (hash_of get_hash t) Hwf) as Hiff.
  destruct Hwf as (Hwf & H2 & Hm). unfold INT_MAX in H2.
  unfold exec. rewrite record_access_run. cbv zeta.
  destruct (was_added_of s (hash_of get_hash t)); [| reflexivity ].
  destruct (calls_reset s (hash_of get_hash t)); simpl.
  - destruct Hiff as [Hiff _]. destruct (Hiff eq_refl) as [_ E].
    rewrite to_int_small by lia. rewrite E.
    assert (0 <= table_size s) by (unfold table_size; lia).
    rewrite Z.quot_div_nonneg by lia.
    replace (table_size s * 10) with (table_size s * 5 * 2) by lia.
    apply Z.div_mul. lia.
  - apply to_int_small. lia.
Qed.

Lemma run_cons (t : T) (ts : list T) (s : FrequencySketch) :
  run get_hash (t :: ts) s = run get_hash ts (exec (record_access get_hash t) s).
Proof. reflexivity. Qed.

Lemma count_added_app (ts : list T) (t : T) :
  forall s : FrequencySketch,
    count_added get_hash s (ts ++ [t]) =
    count_added get_hash s ts
    + (if was_added_of (run get_hash ts s) (hash_of get_hash t) then 1 else 0).
Proof.
  induction ts as [| t' rest IH]; intros s; simpl.
  - lia.
  - rewrite IH. fold (run get_hash rest (exec (record_access get_hash t') s)). lia.
Qed.

(** Along a run without aging pass the tally counts the calls in which a
    counter was incremented. *)
Lemma run_tally (ts : list T) :
  forall s : FrequencySketch,
    wf s -> aging_free get_hash s ts = true ->
    wf (run get_hash ts s) /\
    table_size (run get_hash ts s) = table_size s /\
    m_size (run get_hash ts s) = m_size s + count_added get_hash s ts.
Proof.
  induction ts as [| t rest IH]; intros s Hwf Hfree.
  - simpl. split; [ assumption |]. split; [ reflexivity | lia ].
  - simpl in Hfree. apply andb_true_iff in Hfree as [Hnr Hfree].
    apply negb_true_iff in Hnr.
    destruct (IH (exec (record_access get_hash t) s)
                 (record_access_wf get_hash t s Hwf) Hfree) as (Hwf' & Hsz & Hm).
    rewrite run_cons. split; [ assumption |]. split.
    + rewrite Hsz. apply record_access_size.
    + rewrite Hm, (record_access_tally t s Hwf), Hnr. simpl.
      destruct (was_added_of s (hash_of get_hash t)); lia.
Qed.

Lemma just_constructed_tally (s : FrequencySketch) :
  just_constructed s -> m_size s = 0.
Proof.
  intros (garbage & capacity & E). rewrite construct_run in E.
  destruct (capacity <=? 0); [ discriminate |]. now injection E as <-.
Qed.

Lemma just_aged_tally (s : FrequencySketch) :
  just_aged get_hash s -> m_size s = table_size s * 5.
Proof.
  intros (s0 & t0 & Hwf & Hr & ->).
  rewrite record_access_tally, Hr by assumption.
  rewrite record_access_size.
  apply calls_reset_iff in Hr as [-> _]; [ reflexivity | assumption ].
Qed.

(** C2, amended.  The tally advances in a call of [record_access] exactly
    when one of the four counters of the element was incremented, which is
    when one of them was below 15; a call that increments none changes
    nothing.  The aging pass runs in exactly the call that brings the tally
    to [table_length * 10], and leaves the tally at [table_length * 5].  The
    tally is 0 after the construction and [table_length * 5] after an aging
    pass: counted in calls that advance the tally, the first pass comes with
    call [table_length * 10] after the construction, and each further pass
    with call [table_length * 5] after the pass before it. *)
Theorem aging_when_tally_reaches_sample (s : FrequencySketch) (ts : list T) (t : T) :
  wf s ->
  aging_free get_hash s ts = true ->
  let s1 := run get_hash ts s in
  let hash := hash_of get_hash t in
  let s2 := exec (record_access get_hash t) s1 in
  (was_added_of s1 hash = true <-> exists i, 0 <= i < 4 /\ get_count s1 hash i < 15) /\
  (was_added_of s1 hash = false -> s2 = s1) /\
  (was_added_of s1 hash = true -> calls_reset s1 hash = false ->
   m_size s2 = m_size s1 + 1 /\ m_table s2 = m_table (after_increments s1 hash)) /\
  (calls_reset s1 hash = true <->
   was_added_of s1 hash = true /\
   m_size s + count_added get_hash s (ts ++ [t]) = table_size s * 10) /\
  (calls_reset s1 hash = true ->
   m_table s2 = map halve (m_table (after_increments s1 hash)) /\
   m_size s2 = table_size s * 5) /\
  (just_constructed s -> m_size s = 0) /\
  (just_aged get_hash s -> m_size s = table_size s * 5).
Proof.
  intros Hwf Hfree. cbv zeta.
  destruct (run_tally ts s Hwf Hfree) as (Hwf1 & Hsz1 & Hm1).
  set (s1 := run get_hash ts s) in *. set (hash := hash_of get_hash t).
  pose proof (record_access_tally t s1 Hwf1) as Htally. fold hash in Htally.
  pose proof (record_access_table get_hash t s1) as Htable. fold hash in Htable.
  split; [ apply was_added_iff, Hwf1 |].
  split; [| split; [| split; [| split; [| split ]]]].
  - intros Hw. unfold exec. rewrite record_access_run. cbv zeta. fold hash. now rewrite Hw.
  - intros Hw Hnr. rewrite Htally, Htable, Hw, Hnr. easy.
  - rewrite (calls_reset_iff s1 hash Hwf1), count_added_app, Hsz1, Hm1.
    fold s1 hash. destruct (was_added_of s1 hash); [| easy ].
    split; intros [_ E]; (split; [ reflexivity | lia ]).
  - intros Hr. rewrite Htally, Htable, Hr.
    apply calls_reset_iff in Hr as [-> _]; [| assumption ]. now rewrite Hsz1.
  - apply just_constructed_tally.
  - apply just_aged_tally.
Qed.

End Aging.

(** ** Errors *)

(** C8.  [change_capacity] and the constructor throw exactly when the
    capacity is 0 or less, and what they throw is [invalid_argument]; nothing
    else in the class throws ([record_access] returns on every object, and
    [get_frequency] and [has] are functions).  For a positive capacity the
    call returns and the table has [get_nearest_power_of_two capacity] slots,
    the smallest power of two that is not below the capacity, which is above
    it when the capacity is not a power of two: 16 slots for capacity 10. *)
Theorem invalid_capacity_is_the_only_error (garbage capacity : Z) (s : FrequencySketch) :
  ((exists e, result (change_capacity capacity) s = Thrown e) <-> capacity <= 0) /\
  ((exists e, construct garbage capacity = Thrown e) <-> capacity <= 0) /\
  (forall e,
     result (change_capacity capacity) s = Thrown e \/ construct garbage capacity = Thrown e ->
     e = invalid_argument "FrequencySketch capacity must be larger than 0") /\
  (forall (T : Type) (get_hash : T -> Z) (t : T) (s' : FrequencySketch),
     result (record_access get_hash t) s' = Returned tt) /\
  (0 < capacity ->
   result (change_capacity capacity) s = Returned tt /\
   table_size (exec (change_capacity capacity) s) = get_nearest_power_of_two capacity /\
   (exists s0, construct garbage capacity = Returned s0 /\
               table_size s0 = get_nearest_power_of_two capacity) /\
   (exists k, 0 <= k /\ get_nearest_power_of_two capacity = 2 ^ k) /\
   capacity <= get_nearest_power_of_two capacity /\
   (forall k, 0 <= k -> capacity <= 2 ^ k -> get_nearest_power_of_two capacity <= 2 ^ k) /\
   ((forall k, 0 <= k -> capacity <> 2 ^ k) -> capacity < get_nearest_power_of_two capacity)) /\
  get_nearest_power_of_two 10 = 16 /\
  table_size (exec (change_capacity 10) s) = 16.
Proof.
  unfold result, exec. rewrite construct_run, !change_capacity_run.
  pose proof (get_nearest_power_of_two_pos capacity) as Hpos.
  destruct (Z.leb_spec capacity 0) as [Hle | Hgt]; simpl.
  - split; [ split; [ easy | eauto ] |]. split; [ split; [ easy | eauto ] |].
    split; [ intros e [[= <-] | [= <-]]; reflexivity |].
    split; [ intros; apply record_access_returns |].
    split; [ lia |]. split; [ reflexivity |].
    unfold table_size. simpl. now rewrite length_resize.
  - split; [ split; [ intros [e [=]] | lia ] |].
    split; [ split; [ intros [e [=]] | lia ] |].
    split; [ intros e [[=] | [=]] |].
    split; [ intros; apply record_access_returns |].
    split; [| split; [ reflexivity | unfold table_size; simpl; now rewrite length_resize ]].
    intros _. destruct (get_nearest_power_of_two_spec capacity Hgt) as (E & Hk & Hge & Hmin).
    split; [ reflexivity |]. split.
    { unfold table_size. simpl. rewrite length_resize. lia. }
    split.
    { eexists. split; [ reflexivity |]. unfold table_size. simpl.
      rewrite length_replicate. lia. }
    split; [ eauto |]. split; [ assumption |]. split; [ assumption |].
    intros Hnp. specialize (Hnp _ Hk). lia.
Qed.

(** C9.  [change_capacity] with a capacity of 0 or less throws before it
    has changed anything: the object after the call is the object before it,
    table and tally, and so is every [get_frequency]. *)
Theorem failed_change_capacity_changes_nothing (capacity : Z) (s : FrequencySketch) :
  capacity <= 0 ->
  change_capacity capacity s
  = (Thrown (invalid_argument "FrequencySketch capacity must be larger than 0"), s) /\
  m_table (exec (change_capacity capacity) s) = m_table s /\
  m_size (exec (change_capacity capacity) s) = m_size s /\
  forall (T : Type) (get_hash : T -> Z) (t : T),
    get_frequency get_hash (exec (change_capacity capacity) s) t = get_frequency get_hash s t.
Proof.
  intros Hle. unfold exec. rewrite change_capacity_run.
  destruct (Z.leb_spec capacity 0); [| lia ]. simpl. repeat split.
Qed.

(** ** [change_capacity] on a sketch in use *)

(** What a successful [change_capacity] leaves: [resize] gives the table its
    new length and fills the slots it adds with 0, and the slots that the old
    and the new table share keep their counters.  The tally is 0. *)
Lemma change_capacity_keeps_shared_slots (capacity : Z) (s : FrequencySketch) (n : Z) :
  0 < capacity ->
  0 <= n < table_size s -> n < get_nearest_power_of_two capacity ->
  table_size (exec (change_capacity capacity) s) = get_nearest_power_of_two capacity /\
  m_size (exec (change_capacity capacity) s) = 0 /\
  table_at (exec (change_capacity capacity) s) n = table_at s n.
Proof.
  intros Hc Hn Hn'. unfold exec. rewrite change_capacity_run.
  destruct (Z.leb_spec capacity 0); [ lia |]. unfold table_size, table_at in *. simpl.
  rewrite length_resize. split; [ lia |]. split; [ reflexivity |].
  apply lookup_total_resize; lia.
Qed.

(** A [change_capacity] that does not change the length of the table does not
    change the table, whatever the hash function. *)
Lemma change_capacity_same_length_keeps_table (capacity : Z) (s : FrequencySketch) :
  0 < capacity ->
  get_nearest_power_of_two capacity = table_size s ->
  exec (change_capacity capacity) s = {| m_table := m_table s; m_size := 0 |}.
Proof.
  intros Hc E. unfold exec. rewrite change_capacity_run.
  destruct (Z.leb_spec capacity 0); [ lia |]. simpl. f_equal.
  apply resize_all_alt. unfold table_size in E. lia.
Qed.

(** On the empty table of the constructor every slot is new: a sketch as the
    constructor leaves it estimates 0 for every element. *)
Lemma constructed_get_frequency_zero
  {T : Type} (get_hash : T -> Z) (garbage capacity : Z) (s : FrequencySketch) (t : T) :
  capacity <= INT_MAX ->
  construct garbage capacity = Returned s ->
  get_frequency get_hash s t = 0.
Proof.
  intros Hmax Hc.
  destruct (constructed_wf_table garbage capacity s Hc Hmax) as (_ & Es & _ & Hwf).
  rewrite get_frequency_min, !get_count_counter by lia.
  assert (H : forall i, counter_at s (get_table_index s (hash_of get_hash t) i)
                                   (counter_number (hash_of get_hash t) i) = 0).
  { intros i. pose proof (get_table_index_in_range s (hash_of get_hash t) i Hwf) as Hin.
    revert Hin. generalize (get_table_index s (hash_of get_hash t) i). intros idx Hin.
    rewrite Es in Hin |- *. unfold table_size in Hin. simpl in Hin.
    rewrite length_replicate in Hin. now apply replicate_zero_counter_at. }
  rewrite !H. reflexivity.
Qed.

(** C1.  [change_capacity(10)] on [FrequencySketch<int>(10)] after five
    [record_access(7)]: the call returns, the table has its 16 slots and the
    tally is 0, but [resize] has kept the slots, and [get_frequency(7)] is 5
    after the call as it was before. *)
Theorem change_capacity_keeps_recorded_counts :
  let s := run id_hash [7; 7; 7; 7; 7] sketch_10 in
  construct 0 10 = Returned sketch_10 /\
  get_frequency id_hash s 7 = 5 /\
  result (change_capacity 10) s = Returned tt /\
  table_size (exec (change_capacity 10) s) = 16 /\
  m_size (exec (change_capacity 10) s) = 0 /\
  m_table (exec (change_capacity 10) s) = m_table s /\
  get_frequency id_hash (exec (change_capacity 10) s) 7 = 5.
Proof. vm_compute. repeat split. Qed.

(** ** The example objects *)

Lemma sketch_1_constructed : construct 0 1 = Returned sketch_1.
Proof. reflexivity. Qed.

Lemma sketch_10_constructed : construct 0 10 = Returned sketch_10.
Proof. reflexivity. Qed.

Lemma sketch_1_nine_reached :
  run id_hash [0; 0; 0; 0; 0; 0; 0; 0; 0] sketch_1 = sketch_1_nine /\
  aging_free id_hash sketch_1 [0; 0; 0; 0; 0; 0; 0; 0; 0] = true.
Proof. split; vm_compute; reflexivity. Qed.

Lemma sketch_1_wf : wf sketch_1.
Proof. wf_by_computation. Qed.

Lemma sketch_1_nine_wf : wf sketch_1_nine.
Proof. wf_by_computation. Qed.

Lemma sketch_1_aged_wf : wf sketch_1_aged.
Proof. wf_by_computation. Qed.

Lemma sketch_10_wf : wf sketch_10.
Proof. wf_by_computation. Qed.

Lemma sketch_1_aged_just_aged : just_aged id_hash sketch_1_aged.
Proof.
  exists sketch_1_nine, 0. split; [ apply sketch_1_nine_wf |].
  split; vm_compute; reflexivity.
Qed.

(** C2, as stated, fails.  [FrequencySketch<int>(1)] has one slot and the
    sampling size 10.  The tenth [record_access(0)] runs the aging pass and
    leaves the tally at 5; the next pass runs in the fifth call after it,
    not in the tenth. *)
Lemma aging_after_half_sample : ~ aging_after_full_sample.
Proof.
  intros H.
  specialize (H Z id_hash sketch_1_aged [0; 0; 0; 0] 0
                sketch_1_aged_wf (or_intror sketch_1_aged_just_aged) eq_refl eq_refl).
  vm_compute in H. discriminate H.
Qed.

Lemma reachable_run {T : Type} (get_hash : T -> Z) (ts : list T) :
  forall s : FrequencySketch, reachable get_hash s -> reachable get_hash (run get_hash ts s).
Proof.
  induction ts as [| t rest IH]; intros s Hr; [ exact Hr |].
  rewrite run_cons. apply IH. now apply reach_record_access.
Qed.

Lemma sketch_2_used_reachable : reachable id_hash sketch_2_used.
Proof.
  change sketch_2_used
    with (run id_hash [0; 0; 0; 0; 0; 0; 0; 0; 0; 0; 0; 0; 0; 0; 0; 8; 8; 8; 8] sketch_2).
  apply reachable_run. apply (reach_construct Z id_hash 0 2).
  - unfold INT_MAX. lia.
  - reflexivity.
Qed.

(** C5, as stated, fails.  [FrequencySketch<int>(2)] has the sampling size
    20.  After fifteen [record_access(0)] and four [record_access(8)] the
    counters of 8 are 15, 4, 4 and 15 and the tally is 19; the next
    [record_access(8)] increments the two counters below 15 and runs the
    aging pass, and the counters of 8 are 7, 2, 2 and 7 after the call, not
    15, 5, 5 and 15. *)
Lemma increment_then_aging_in_one_call : ~ increment_survives_every_call.
Proof.
  intros H.
  specialize (H Z id_hash sketch_2_used 8 1 sketch_2_used_reachable ltac:(lia)).
  vm_compute in H. discriminate H.
Qed.

(** ** The theorems at the example objects *)

Lemma aging_when_tally_reaches_sample_witness :
  wf sketch_1 /\
  aging_free id_hash sketch_1 [0; 0; 0; 0; 0; 0; 0; 0; 0] = true /\
  calls_reset (run id_hash [0; 0; 0; 0; 0; 0; 0; 0; 0] sketch_1) (hash_of id_hash 0) = true /\
  m_size (exec (record_access id_hash 0)
               (run id_hash [0; 0; 0; 0; 0; 0; 0; 0; 0] sketch_1)) = table_size sketch_1 * 5.
Proof.
  assert (Hwf : wf sketch_1) by wf_by_computation.
  assert (Hfree : aging_free id_hash sketch_1 [0; 0; 0; 0; 0; 0; 0; 0; 0] = true)
    by (vm_compute; reflexivity).
  destruct (aging_when_tally_reaches_sample id_hash sketch_1
              [0; 0; 0; 0; 0; 0; 0; 0; 0] 0 Hwf Hfree)
    as (_ & _ & _ & Hiff & Haged & _).
  assert (Hr : calls_reset (run id_hash [0; 0; 0; 0; 0; 0; 0; 0; 0] sketch_1)
                           (hash_of id_hash 0) = true).
  { apply Hiff. split; vm_compute; reflexivity. }
  split; [ exact Hwf |]. split; [ exact Hfree |]. split; [ exact Hr |].
  apply Haged, Hr.
Defined.

Lemma aging_halves_every_counter_witness :
  0 <= 1 < 16 /\
  0 <= 0 < table_size sketch_1_nine /\
  counter (halve 0x9999) 1 = counter 0x9999 1 / 2 /\
  counter_at (exec reset sketch_1_nine) 0 1 = counter_at sketch_1_nine 0 1 / 2 /\
  m_size (exec reset sketch_1_nine) = m_size sketch_1_nine / 2.
Proof.
  assert (Hj : 0 <= 1 < 16) by lia.
  assert (Hn : 0 <= 0 < table_size sketch_1_nine) by (unfold table_size; simpl; lia).
  destruct (aging_halves_every_counter 0x9999 sketch_1_nine 0 1 Hj Hn)
    as (_ & Hc & _ & _ & Hat & Hm).
  split; [ exact Hj |]. split; [ exact Hn |]. split; [ exact Hc |]. split; [ exact Hat |].
  apply Hm. simpl. lia.
Defined.

Lemma increment_touches_one_counter_witness :
  wf_table (m_table sketch_1_nine) /\
  0 <= 2 < 4 /\
  get_count sketch_1_nine 0 2 < 15 /\
  counter_at (exec (try_increment_at 0 2) sketch_1_nine) 0 2
  = counter_at sketch_1_nine 0 2 + 1 /\
  counter_at (exec (try_increment_at 0 2) sketch_1_nine) 0 3
  = counter_at sketch_1_nine 0 3.
Proof.
  assert (Hwf : wf_table (m_table sketch_1_nine)) by wf_by_computation.
  assert (Hi : 0 <= 2 < 4) by lia.
  assert (Hc : get_count sketch_1_nine 0 2 < 15) by (vm_compute; reflexivity).
  destruct (increment_touches_one_counter sketch_1_nine 0 2 Hwf Hi Hc)
    as (_ & _ & Hsame & Hother & _).
  split; [ exact Hwf |]. split; [ exact Hi |]. split; [ exact Hc |].
  split; [ exact Hsame |].
  apply Hother; [ lia | vm_compute; discriminate ].
Defined.

Lemma record_access_increments_saturating_witness :
  wf_table (m_table sketch_1_aged) /\
  0 <= 1 < 4 /\
  result (record_access id_hash 0) sketch_1_aged = Returned tt /\
  get_count (after_increments sketch_1_aged (hash_of id_hash 0)) (hash_of id_hash 0) 1
  = get_count sketch_1_aged (hash_of id_hash 0) 1 + 1 /\
  get_count (exec (record_access id_hash 0) sketch_1_aged) (hash_of id_hash 0) 1
  = get_count sketch_1_aged (hash_of id_hash 0) 1 + 1.
Proof.
  assert (Hwf : wf_table (m_table sketch_1_aged)) by wf_by_computation.
  assert (Hi : 0 <= 1 < 4) by lia.
  assert (Hc : get_count sketch_1_aged (hash_of id_hash 0) 1 < 15)
    by (vm_compute; reflexivity).
  assert (Hnr : calls_reset sketch_1_aged (hash_of id_hash 0) = false)
    by (vm_compute; reflexivity).
  destruct (record_access_increments_saturating id_hash sketch_1_aged 0 1 Hwf Hi)
    as (Hret & Hlt & _ & Hquiet & _).
  destruct (Hquiet Hnr) as (_ & Hafter & _).
  split; [ exact Hwf |]. split; [ exact Hi |]. split; [ exact Hret |].
  split; [ exact (Hlt Hc) | exact (Hafter Hc) ].
Defined.

Lemma record_access_monotone_witness :
  wf_table (m_table sketch_1_aged) /\
  calls_reset sketch_1_aged (hash_of id_hash 0) = false /\
  get_frequency id_hash sketch_1_aged 0
  <= get_frequency id_hash (exec (record_access id_hash 0) sketch_1_aged) 0.
Proof.
  assert (Hwf : wf_table (m_table sketch_1_aged)) by wf_by_computation.
  assert (Hnr : calls_reset sketch_1_aged (hash_of id_hash 0) = false)
    by (vm_compute; reflexivity).
  split; [ exact Hwf |]. split; [ exact Hnr |].
  exact (record_access_monotone id_hash sketch_1_aged 0 0 Hwf Hnr).
Defined.

Lemma fresh_sketch_counts_exactly_witness :
  10 <= INT_MAX /\
  construct 0 10 = Returned sketch_10 /\
  aging_free id_hash sketch_10 [7; 4; 7] = true /\
  (forall t', t' ∈ [7; 4; 7] -> t' = 7 \/ collide id_hash sketch_10 7 t' = false) /\
  times_recorded 7 [7; 4; 7] <= 15 /\
  get_frequency id_hash (run id_hash [7; 4; 7] sketch_10) 7 = times_recorded 7 [7; 4; 7].
Proof.
  assert (Hmax : 10 <= INT_MAX) by (unfold INT_MAX; lia).
  assert (Hc : construct 0 10 = Returned sketch_10) by reflexivity.
  assert (Hfree : aging_free id_hash sketch_10 [7; 4; 7] = true) by (vm_compute; reflexivity).
  assert (Hcol : forall t', t' ∈ [7; 4; 7] ->
                   t' = 7 \/ collide id_hash sketch_10 7 t' = false).
  { intros t' Hin. rewrite !elem_of_cons, elem_of_nil in Hin.
    destruct Hin as [-> | [-> | [-> | []]]];
      [ left; reflexivity | right; vm_compute; reflexivity | left; reflexivity ]. }
  assert (Hk : times_recorded 7 [7; 4; 7] <= 15) by (vm_compute; discriminate).
  split; [ exact Hmax |]. split; [ exact Hc |]. split; [ exact Hfree |].
  split; [ exact Hcol |]. split; [ exact Hk |].
  exact (fresh_sketch_counts_exactly id_hash 0 10 sketch_10 7 [7; 4; 7]
           Hmax Hc Hfree Hcol Hk).
Defined.

Lemma invalid_capacity_is_the_only_error_witness :
  0 < 10 /\
  result (change_capacity 10) sketch_1_nine = Returned tt /\
  table_size (exec (change_capacity 10) sketch_1_nine) = get_nearest_power_of_two 10.
Proof.
  assert (Hpos : 0 < 10) by lia.
  destruct (invalid_capacity_is_the_only_error 0 10 sketch_1_nine)
    as (_ & _ & _ & _ & Hok & _).
  destruct (Hok Hpos) as (Hret & Hsz & _).
  split; [ exact Hpos |]. split; [ exact Hret | exact Hsz ].
Defined.

Lemma failed_change_capacity_changes_nothing_witness :
  -3 <= 0 /\
  change_capacity (-3) sketch_1_nine
  = (Thrown (invalid_argument "FrequencySketch capacity must be larger than 0"),
     sketch_1_nine).
Proof.
  assert (Hle : -3 <= 0) by lia.
  destruct (failed_change_capacity_changes_nothing (-3) sketch_1_nine Hle) as (Hrun & _).
  split; [ exact Hle | exact Hrun ].
Defined.

(** * Further properties of the sketch *)

(** ** Addressing *)

Lemma min_half (a b : Z) : Z.min (a / 2) (b / 2) = Z.min a b / 2.
Proof.
  destruct (Z.le_ge_cases a b) as [H | H].
  - rewrite (Z.min_l a b) by assumption.
    apply Z.min_l. apply Z.div_le_mono; lia.
  - rewrite (Z.min_r a b) by lia.
    apply Z.min_r. apply Z.div_le_mono; lia.
Qed.

(** X1.  When the table has [2 ^ k] slots, the slot of a counter is the
    remainder, by the length of the table, of the product of the seed and the
    hash with its high half added in: the mask [size - 1] takes the
    remainder. *)
Theorem table_index_is_remainder (s : FrequencySketch) (hash i k : Z) :
  0 <= k <= 31 ->
  table_size s = 2 ^ k ->
  let h := to_uint64 ((SEEDS !!! Z.to_nat i) * hash) in
  get_table_index s hash i = to_uint64 (h + Z.shiftr h 32) mod table_size s /\
  0 <= get_table_index s hash i < table_size s.
Proof.
  intros Hk Hsz. cbv zeta. unfold get_table_index. rewrite Hsz.
  assert (Hp : 0 < 2 ^ k) by (apply Z.pow_pos_nonneg; lia).
  assert (Hp' : 2 ^ k <= 2 ^ 31) by (apply Z.pow_le_mono_r; lia).
  rewrite (to_uint64_small (2 ^ k - 1)) by lia.
  replace (2 ^ k - 1) with (Z.ones k) by (rewrite Z.ones_equiv; lia).
  rewrite Z.land_ones by lia.
  match goal with |- context [?a mod 2 ^ k] =>
    pose proof (Z.mod_pos_bound a (2 ^ k) Hp) as Hm end.
  rewrite to_int_small by lia. split; [ reflexivity | assumption ].
Qed.

(** X2.  The offset of counter [i] of an element is
    [16 * (hash mod 4) + 4 * i]: a multiple of 4 from 0 to 60, within the
    16-bit part of the slot that the two low bits of the hash choose, and
    different for different [i].  The multiplier is 0, 4, 8 or 12. *)
Theorem counter_offsets_layout (hash i i' : Z) :
  0 <= i < 4 ->
  0 <= i' < 4 ->
  get_offset_multiplier hash = 4 * (hash mod 4) /\
  get_counter_offset hash i = 16 * (hash mod 4) + 4 * i /\
  0 <= get_counter_offset hash i <= 60 /\
  get_counter_offset hash i mod 4 = 0 /\
  get_counter_offset hash i / 16 = hash mod 4 /\
  (get_counter_offset hash i = get_counter_offset hash i' -> i = i').
Proof.
  intros Hi Hi'.
  rewrite get_offset_multiplier_eq, !get_counter_offset_eq by assumption.
  unfold counter_number. change 3 with (Z.ones 2). rewrite Z.land_ones by lia.
  change (2 ^ 2) with 4. pose proof (Z.mod_pos_bound hash 4 ltac:(lia)) as Hm.
  split; [ reflexivity |]. split; [ lia |]. split; [ lia |]. split.
  - replace (4 * (4 * (hash mod 4) + i)) with ((4 * (hash mod 4) + i) * 4) by lia.
    apply Z.mod_mul. lia.
  - split; [| lia ].
    symmetry. apply Z.div_unique_pos with (r := 4 * i); lia.
Qed.

(** ** Bounds of the table accesses *)

(** X3.  On every object a program can have, the table is not empty, its
    slots are 64-bit values, and the slot index of each of the four counters
    of any hash is within the table: [get_count] and [try_increment_at] never
    read or write outside [m_table]. *)
Theorem reachable_accesses_in_bounds
  {T : Type} (get_hash : T -> Z) (s : FrequencySketch) (hash i : Z) :
  reachable get_hash s ->
  1 <= table_size s <= 2 ^ 31 /\
  Forall is_uint64 (m_table s) /\
  0 <= get_table_index s hash i < table_size s.
Proof.
  intros Hr. pose proof (reachable_wf_table get_hash s Hr) as Hwf.
  split; [ now apply table_size_range |]. split; [ apply Hwf |].
  now apply get_table_index_in_range.
Qed.

Lemma log2_up_int (capacity : Z) :
  0 < capacity <= INT_MAX -> 0 <= Z.log2_up capacity <= 31.
Proof.
  intros [Hpos Hmax]. split; [ apply Z.log2_up_nonneg |].
  apply Z.log2_up_le_pow2; [ assumption |]. unfold INT_MAX in Hmax. lia.
Qed.

(** X4.  The table of every object a program can have has a power of two
    as its length, [2 ^ k] with [k] from 0 to 31 (the length is what
    [get_nearest_power_of_two] returns, taken as the spec gives it, and
    [record_access] does not change it). *)
Theorem reachable_table_length_power_of_two
  {T : Type} (get_hash : T -> Z) (s : FrequencySketch) :
  reachable get_hash s ->
  exists k, 0 <= k <= 31 /\ table_size s = 2 ^ k.
Proof.
  induction 1 as [garbage capacity s Hmax Hc | s t _ IH | s capacity _ _ Hcap].
  - destruct (constructed_wf_table garbage capacity s Hc Hmax) as (Hpos & _ & Hsz & _).
    exists (Z.log2_up capacity). split; [ apply log2_up_int; lia | exact Hsz ].
  - rewrite record_access_size. exact IH.
  - exists (Z.log2_up capacity). split; [ now apply log2_up_int |].
    unfold exec. rewrite change_capacity_run.
    destruct (Z.leb_spec capacity 0); [ lia |]. unfold table_size. simpl.
    pose proof (get_nearest_power_of_two_pos capacity).
    rewrite length_resize, Z2Nat.id by lia. reflexivity.
Qed.

(** ** One call of [try_increment_at] *)

(** X5.  [try_increment_at] returns true exactly when the counter it
    addresses is below 15, and when it returns false the object is as it
    was. *)
Theorem try_increment_at_reports_saturation (s : FrequencySketch) (hash i : Z) :
  0 <= i < 4 ->
  result (try_increment_at hash i) s = Returned (get_count s hash i <? 15) /\
  (get_count s hash i = 15 -> exec (try_increment_at hash i) s = s) /\
  (get_count s hash i < 15 <-> result (try_increment_at hash i) s = Returned true).
Proof.
  intros Hi. pose proof (try_increment_at_result hash i s Hi) as Hres.
  split; [ exact Hres |]. split.
  - intros Hc. unfold exec. rewrite try_increment_at_run. simpl.
    rewrite can_increment_counter_counter, <- get_count_counter, Hc by assumption.
    reflexivity.
  - rewrite Hres. destruct (Z.ltb_spec (get_count s hash i) 15); split;
      intros H'; try reflexivity; try assumption; try lia; discriminate.
Qed.

(** ** The slot as its sixteen counters *)

Lemma uint64_high_bit (w n : Z) : is_uint64 w -> 64 <= n -> Z.testbit w n = false.
Proof.
  intros Hw Hn. rewrite <- (Z.mod_small w (2 ^ 64)) by exact Hw.
  apply Z.mod_pow2_bits_high. lia.
Qed.

(** X6.  The sixteen 4-bit counters are all of a slot: two 64-bit slots
    with the same sixteen counters are the same word. *)
Theorem slot_determined_by_counters (w w' : Z) :
  is_uint64 w ->
  is_uint64 w' ->
  (forall j, 0 <= j < 16 -> counter w j = counter w' j) ->
  w = w'.
Proof.
  intros Hw Hw' Hc. apply Z.bits_inj'. intros n Hn.
  destruct (Z.lt_ge_cases n 64) as [Hlt | Hge].
  - pose proof (Z.div_mod n 4 ltac:(lia)) as Hdm.
    pose proof (Z.mod_pos_bound n 4 ltac:(lia)) as Hr.
    assert (Hj : 0 <= n / 4 < 16).
    { split; [ apply Z.div_pos; lia | apply Z.div_lt_upper_bound; lia ]. }
    pose proof (f_equal (fun c => Z.testbit c (n mod 4)) (Hc (n / 4) Hj)) as E.
    simpl in E. rewrite !counter_testbit in E by lia.
    replace (n mod 4 + 4 * (n / 4)) with n in E by lia.
    replace (n mod 4 <? 4) with true in E by (symmetry; apply Z.ltb_lt; lia).
    now rewrite !andb_true_r in E.
  - now rewrite !uint64_high_bit.
Qed.

(** ** The aging pass and the estimates *)

Lemma half_of_counter (c : Z) : 0 <= c <= 15 -> 0 <= c / 2 <= 7.
Proof.
  intros Hc. split; [ apply Z.div_pos; lia |].
  assert (c / 2 < 8) by (apply Z.div_lt_upper_bound; lia). lia.
Qed.

Lemma reset_size (s : FrequencySketch) : table_size (exec reset s) = table_size s.
Proof. unfold exec. rewrite reset_run. unfold table_size. simpl. now rewrite length_map. Qed.

Lemma reset_get_count (s : FrequencySketch) (hash i : Z) :
  wf_table (m_table s) -> 0 <= i < 4 ->
  get_count (exec reset s) hash i = get_count s hash i / 2.
Proof.
  intros Hwf Hi. rewrite !get_count_counter by assumption.
  rewrite (get_table_index_size s) by apply reset_size.
  apply reset_counter_at.
  - now apply get_table_index_in_range.
  - now apply counter_number_range.
Qed.

Section Estimates.

Context {T : Type} (get_hash : T -> Z).

(** X7.  The aging pass halves the estimate of every element, rounding
    down. *)
Theorem aging_halves_estimates (s : FrequencySketch) (t : T) :
  wf_table (m_table s) ->
  get_frequency get_hash (exec reset s) t = get_frequency get_hash s t / 2.
Proof.
  intros Hwf. rewrite !get_frequency_min.
  rewrite !reset_get_count by (assumption || lia).
  now rewrite !min_half.
Qed.

(** X8.  After the aging pass no counter of the table is above 7, whatever
    it was before: every element can be counted again, and the next
    [record_access], for whatever element, increments all four of its
    counters and advances the tally. *)
Theorem aging_unsaturates (s : FrequencySketch) (t : T) (n j i : Z) :
  wf_table (m_table s) ->
  0 <= n < table_size s ->
  0 <= j < 16 ->
  0 <= i < 4 ->
  0 <= counter_at (exec reset s) n j <= 7 /\
  get_frequency get_hash (exec reset s) t <= 7 /\
  was_added_of (exec reset s) (hash_of get_hash t) = true /\
  get_count (after_increments (exec reset s) (hash_of get_hash t)) (hash_of get_hash t) i
  = get_count (exec reset s) (hash_of get_hash t) i + 1.
Proof.
  intros Hwf Hn Hj Hi.
  assert (Hwf' : wf_table (m_table (exec reset s))).
  { unfold exec. rewrite reset_run. simpl. now apply halve_wf_table. }
  assert (Hc : forall i', 0 <= i' < 4 ->
             0 <= get_count (exec reset s) (hash_of get_hash t) i' <= 7).
  { intros i' Hi'. rewrite reset_get_count by assumption.
    apply half_of_counter. now apply get_count_range. }
  split; [| split; [| split ]].
  - rewrite reset_counter_at by assumption.
    pose proof (counter_range (table_at s n) j) as Hr. unfold counter_at.
    apply half_of_counter. lia.
  - rewrite get_frequency_min. pose proof (Hc 0 ltac:(lia)). lia.
  - apply was_added_iff; [ assumption |]. exists 0. pose proof (Hc 0 ltac:(lia)). lia.
  - destruct (after_increments_spec (exec reset s) (hash_of get_hash t) Hwf')
      as (_ & _ & _ & Hsz & _ & Hcnt).
    pose proof (get_table_index_in_range (exec reset s) (hash_of get_hash t) i Hwf').
    pose proof (counter_number_range (hash_of get_hash t) i Hi).
    pose proof (Hc i Hi) as Hci. rewrite get_count_counter in Hci by assumption.
    rewrite !get_count_counter by assumption.
    rewrite (get_table_index_size (exec reset s)) by assumption.
    rewrite Hcnt by lia. rewrite addressed_own by assumption.
    now replace (_ <? 15) with true by (symmetry; apply Z.ltb_lt; lia).
Qed.

(** X9.  What one [record_access] does to the estimate of its own element:
    the estimate goes up by one, up to 15, and is then halved if the call
    runs the aging pass. *)
Theorem record_access_own_estimate (s : FrequencySketch) (t : T) :
  wf_table (m_table s) ->
  get_frequency get_hash (exec (record_access get_hash t) s) t =
  if calls_reset s (hash_of get_hash t)
  then Z.min 15 (get_frequency get_hash s t + 1) / 2
  else Z.min 15 (get_frequency get_hash s t + 1).
Proof.
  intros Hwf. rewrite !get_frequency_min.
  assert (H : forall i, 0 <= i < 4 ->
            get_count (exec (record_access get_hash t) s) (hash_of get_hash t) i =
            if calls_reset s (hash_of get_hash t)
            then Z.min 15 (get_count s (hash_of get_hash t) i + 1) / 2
            else Z.min 15 (get_count s (hash_of get_hash t) i + 1)).
  { intros i Hi. rewrite record_access_get_count by assumption. cbv zeta.
    rewrite addressed_own by assumption. simpl.
    pose proof (get_count_range s (hash_of get_hash t) i Hi) as Hr.
    assert (E : get_count s (hash_of get_hash t) i
                + (if get_count s (hash_of get_hash t) i <? 15 then 1 else 0)
                = Z.min 15 (get_count s (hash_of get_hash t) i + 1)).
    { destruct (Z.ltb_spec (get_count s (hash_of get_hash t) i) 15); lia. }
    now rewrite E. }
  rewrite !H by lia.
  destruct (calls_reset s (hash_of get_hash t)).
  - rewrite !min_half. f_equal. lia.
  - lia.
Qed.

(** X10.  The invariant of the object is kept by every run of
    [record_access]: the table keeps its length, and the tally stays at 0 or
    above and below the sampling size, which is ten times the length of the
    table. *)
Theorem tally_stays_below_sampling_size (s : FrequencySketch) (ts : list T) :
  wf s ->
  wf (run get_hash ts s) /\
  table_size (run get_hash ts s) = table_size s /\
  get_sampling_size (run get_hash ts s) = table_size s * 10 /\
  0 <= m_size (run get_hash ts s) < get_sampling_size (run get_hash ts s).
Proof.
  revert s. induction ts as [| t rest IH]; intros s Hwf.
  - simpl. pose proof Hwf as (_ & H2 & Hm).
    rewrite get_sampling_size_int by assumption.
    split; [ exact Hwf |]. split; [ reflexivity |]. split; [ reflexivity | exact Hm ].
  - rewrite run_cons.
    destruct (IH _ (record_access_wf get_hash t s Hwf)) as (Hwf' & Hsz & Hss & Hm).
    rewrite record_access_size in Hsz, Hss.
    split; [ assumption |]. split; [ assumption |]. split; assumption.
Qed.

(** X11.  The estimate never falls behind along a run without aging pass,
    whatever other elements are recorded and wherever they collide: it is at
    least the estimate at the start plus the number of calls for the
    element, up to 15. *)
Theorem estimate_never_below_count
  `{EqDecision T} (s : FrequencySketch) (t : T) (ts : list T) :
  wf_table (m_table s) ->
  aging_free get_hash s ts = true ->
  Z.min 15 (get_frequency get_hash s t + times_recorded t ts)
  <= get_frequency get_hash (run get_hash ts s) t.
Proof.
  intros Hwf Hfree.
  assert (H : forall i, 0 <= i < 4 ->
            Z.min 15 (get_count s (hash_of get_hash t) i + times_recorded t ts)
            <= get_count (run get_hash ts s) (hash_of get_hash t) i).
  { intros i Hi. revert s Hwf Hfree.
    induction ts as [| t' rest IH]; intros s Hwf Hfree.
    - unfold times_recorded. simpl. lia.
    - simpl in Hfree. apply andb_true_iff in Hfree as [Hnr Hfree].
      apply negb_true_iff in Hnr. rewrite run_cons.
      specialize (IH _ (record_access_wf_table get_hash t' s Hwf) Hfree).
      rewrite record_access_get_count in IH by assumption. cbv zeta in IH.
      rewrite Hnr in IH. rewrite times_recorded_cons.
      pose proof (get_count_range s (hash_of get_hash t) i Hi) as Hr.
      pose proof (times_recorded_nonneg t rest) as Hk.
      destruct (decide (t' = t)) as [-> | Hne].
      + rewrite addressed_own in IH by assumption. simpl in IH.
        destruct (Z.ltb_spec (get_count s (hash_of get_hash t) i) 15); lia.
      + destruct (addressed s (hash_of get_hash t') counter_indices _ _ && _) in IH; lia. }
  rewrite !get_frequency_min.
  pose proof (H 0 ltac:(lia)). pose proof (H 1 ltac:(lia)).
  pose proof (H 2 ltac:(lia)). pose proof (H 3 ltac:(lia)). lia.
Qed.

(** X12.  From any object, along a run without aging pass in which every
    call is for [t] or for an element that has no counter in common with
    [t], the estimate of [t] is the estimate at the start plus the number of
    calls for [t], up to 15: it saturates at 15 and does not overflow. *)
Theorem estimate_counts_own_accesses
  `{EqDecision T} (s : FrequencySketch) (t : T) (ts : list T) :
  wf_table (m_table s) ->
  aging_free get_hash s ts = true ->
  (forall t', t' ∈ ts -> t' = t \/ collide get_hash s t t' = false) ->
  get_frequency get_hash (run get_hash ts s) t
  = Z.min 15 (get_frequency get_hash s t + times_recorded t ts).
Proof.
  intros Hwf Hfree Hcol. rewrite !get_frequency_min.
  rewrite !(run_get_count get_hash t ts s) by (assumption || lia). lia.
Qed.

End Estimates.

(** ** The constructor and [change_capacity] *)

(** X13.  A sketch as the constructor leaves it is empty: the tally is 0,
    every slot of the table is 0, [get_frequency] is 0 and [has] is false for
    every element; and it does not depend on what [m_size] held before the
    constructor ran. *)
Theorem constructed_sketch_is_empty
  {T : Type} (get_hash : T -> Z) (garbage garbage' capacity : Z)
  (s : FrequencySketch) (t : T) (n : Z) :
  capacity <= INT_MAX ->
  construct garbage capacity = Returned s ->
  0 <= n < table_size s ->
  construct garbage' capacity = Returned s /\
  m_size s = 0 /\
  table_at s n = 0 /\
  get_frequency get_hash s t = 0 /\
  has get_hash s t = false.
Proof.
  intros Hmax Hc Hn.
  pose proof (constructed_get_frequency_zero get_hash garbage capacity s t Hmax Hc) as Hf.
  destruct (constructed_wf_table garbage capacity s Hc Hmax) as (Hpos & Es & _ & _).
  split; [| split; [| split; [| split ]]].
  - rewrite construct_run in *. destruct (capacity <=? 0); [ discriminate | exact Hc ].
  - now rewrite Es.
  - rewrite Es in Hn |- *. unfold table_at, table_size in *. simpl in *.
    rewrite length_replicate in Hn. apply lookup_total_replicate_2. lia.
  - exact Hf.
  - unfold has. now rewrite Hf.
Qed.

(** X14.  A [change_capacity] with a positive capacity resizes the table in
    place: the table gets its new length, every slot below both the old and
    the new length keeps its value, every slot the call adds is 0, and the
    tally is 0; the invariant of the table is kept, and a second call with the
    same capacity changes nothing more. *)
Theorem change_capacity_resizes_in_place (capacity : Z) (s : FrequencySketch) (n : Z) :
  0 < capacity <= INT_MAX ->
  wf_table (m_table s) ->
  0 <= n < get_nearest_power_of_two capacity ->
  let s' := exec (change_capacity capacity) s in
  result (change_capacity capacity) s = Returned tt /\
  table_size s' = get_nearest_power_of_two capacity /\
  m_size s' = 0 /\
  (n < table_size s -> table_at s' n = table_at s n) /\
  (table_size s <= n -> table_at s' n = 0) /\
  wf_table (m_table s') /\
  exec (change_capacity capacity) s' = s'.
Proof.
  intros Hcap Hwf Hn. cbv zeta.
  pose proof (change_capacity_wf_table capacity s Hcap Hwf) as Hwf'.
  unfold exec, result in *. rewrite !change_capacity_run in *.
  destruct (Z.leb_spec capacity 0); [ lia |]. simpl in *.
  unfold table_size, table_at. simpl. rewrite length_resize.
  split; [ reflexivity |]. split; [ lia |]. split; [ reflexivity |].
  split; [| split; [| split ]].
  - intros Hlt. apply lookup_total_resize; lia.
  - intros Hge. apply lookup_total_resize_new; lia.
  - exact Hwf'.
  - f_equal. apply resize_all_alt. now rewrite length_resize.
Qed.

(** ** The further properties at the example objects *)

Lemma table_index_is_remainder_witness :
  0 <= 4 <= 31 /\
  table_size sketch_10 = 2 ^ 4 /\
  0 <= get_table_index sketch_10 7 0 < table_size sketch_10.
Proof.
  assert (Hk : 0 <= 4 <= 31) by lia.
  assert (Hsz : table_size sketch_10 = 2 ^ 4) by reflexivity.
  split; [ exact Hk |]. split; [ exact Hsz |].
  exact (proj2 (table_index_is_remainder sketch_10 7 0 4 Hk Hsz)).
Defined.

Lemma counter_offsets_layout_witness :
  0 <= 1 < 4 /\ 0 <= 2 < 4 /\
  get_counter_offset 7 1 = 16 * (7 mod 4) + 4 * 1.
Proof.
  assert (Hi : 0 <= 1 < 4) by lia. assert (Hi' : 0 <= 2 < 4) by lia.
  split; [ exact Hi |]. split; [ exact Hi' |].
  exact (proj1 (proj2 (counter_offsets_layout 7 1 2 Hi Hi'))).
Defined.

Lemma reachable_accesses_in_bounds_witness :
  reachable id_hash (exec (record_access id_hash 0) sketch_1) /\
  0 <= get_table_index (exec (record_access id_hash 0) sketch_1) 5 2
    < table_size (exec (record_access id_hash 0) sketch_1).
Proof.
  assert (Hr : reachable id_hash (exec (record_access id_hash 0) sketch_1)).
  { apply reach_record_access. apply (reach_construct Z id_hash 0 1).
    - unfold INT_MAX. lia.
    - reflexivity. }
  split; [ exact Hr |].
  exact (proj2 (proj2 (reachable_accesses_in_bounds id_hash _ 5 2 Hr))).
Defined.

Lemma reachable_table_length_power_of_two_witness :
  reachable id_hash (exec (change_capacity 10) sketch_1) /\
  exists k, 0 <= k <= 31 /\ table_size (exec (change_capacity 10) sketch_1) = 2 ^ k.
Proof.
  assert (Hr : reachable id_hash (exec (change_capacity 10) sketch_1)).
  { apply reach_change_capacity; [| unfold INT_MAX; lia ].
    apply (reach_construct Z id_hash 0 1); [ unfold INT_MAX; lia | reflexivity ]. }
  split; [ exact Hr |].
  exact (reachable_table_length_power_of_two id_hash _ Hr).
Defined.

Lemma try_increment_at_reports_saturation_witness :
  0 <= 2 < 4 /\
  result (try_increment_at 0 2) sketch_1_nine = Returned (get_count sketch_1_nine 0 2 <? 15).
Proof.
  assert (Hi : 0 <= 2 < 4) by lia.
  split; [ exact Hi |].
  exact (proj1 (try_increment_at_reports_saturation sketch_1_nine 0 2 Hi)).
Defined.

Lemma slot_determined_by_counters_witness :
  is_uint64 0x9999 /\ is_uint64 (9 * 4369) /\
  (forall j, 0 <= j < 16 -> counter 0x9999 j = counter (9 * 4369) j) /\
  0x9999 = 9 * 4369.
Proof.
  assert (Hw : is_uint64 0x9999) by (unfold is_uint64; lia).
  assert (Hw' : is_uint64 (9 * 4369)) by (unfold is_uint64; lia).
  assert (Hc : forall j, 0 <= j < 16 -> counter 0x9999 j = counter (9 * 4369) j)
    by (intros j _; reflexivity).
  split; [ exact Hw |]. split; [ exact Hw' |]. split; [ exact Hc |].
  exact (slot_determined_by_counters 0x9999 (9 * 4369) Hw Hw' Hc).
Defined.

Lemma aging_halves_estimates_witness :
  wf_table (m_table sketch_1_nine) /\
  get_frequency id_hash (exec reset sketch_1_nine) 0
  = get_frequency id_hash sketch_1_nine 0 / 2.
Proof.
  assert (Hwf : wf_table (m_table sketch_1_nine)) by wf_by_computation.
  split; [ exact Hwf |].
  exact (aging_halves_estimates id_hash sketch_1_nine 0 Hwf).
Defined.

Lemma aging_unsaturates_witness :
  wf_table (m_table {| m_table := [0xffff]; m_size := 3 |}) /\
  0 <= 0 < table_size {| m_table := [0xffff]; m_size := 3 |} /\
  0 <= 1 < 16 /\
  0 <= 2 < 4 /\
  was_added_of (exec reset {| m_table := [0xffff]; m_size := 3 |}) (hash_of id_hash 0) = true.
Proof.
  assert (Hwf : wf_table (m_table {| m_table := [0xffff]; m_size := 3 |}))
    by wf_by_computation.
  assert (Hn : 0 <= 0 < table_size {| m_table := [0xffff]; m_size := 3 |})
    by (unfold table_size; simpl; lia).
  assert (Hj : 0 <= 1 < 16) by lia. assert (Hi : 0 <= 2 < 4) by lia.
  split; [ exact Hwf |]. split; [ exact Hn |]. split; [ exact Hj |]. split; [ exact Hi |].
  exact (proj1 (proj2 (proj2 (aging_unsaturates id_hash _ 0 0 1 2 Hwf Hn Hj Hi)))).
Defined.

Lemma record_access_own_estimate_witness :
  wf_table (m_table sketch_1_nine) /\
  get_frequency id_hash (exec (record_access id_hash 0) sketch_1_nine) 0 =
  if calls_reset sketch_1_nine (hash_of id_hash 0)
  then Z.min 15 (get_frequency id_hash sketch_1_nine 0 + 1) / 2
  else Z.min 15 (get_frequency id_hash sketch_1_nine 0 + 1).
Proof.
  assert (Hwf : wf_table (m_table sketch_1_nine)) by wf_by_computation.
  split; [ exact Hwf |].
  exact (record_access_own_estimate id_hash sketch_1_nine 0 Hwf).
Defined.

Lemma tally_stays_below_sampling_size_witness :
  wf sketch_1 /\
  0 <= m_size (run id_hash [0; 0; 0; 0; 0; 0; 0; 0; 0; 0; 0; 0] sketch_1)
    < get_sampling_size (run id_hash [0; 0; 0; 0; 0; 0; 0; 0; 0; 0; 0; 0] sketch_1).
Proof.
  assert (Hwf : wf sketch_1) by wf_by_computation.
  split; [ exact Hwf |].
  exact (proj2 (proj2 (proj2 (tally_stays_below_sampling_size id_hash sketch_1
                                 [0; 0; 0; 0; 0; 0; 0; 0; 0; 0; 0; 0] Hwf)))).
Defined.

Lemma estimate_never_below_count_witness :
  wf_table (m_table sketch_10) /\
  aging_free id_hash sketch_10 [7; 3; 7; 11] = true /\
  Z.min 15 (get_frequency id_hash sketch_10 7 + times_recorded 7 [7; 3; 7; 11])
  <= get_frequency id_hash (run id_hash [7; 3; 7; 11] sketch_10) 7.
Proof.
  assert (Hwf : wf_table (m_table sketch_10)) by wf_by_computation.
  assert (Hfree : aging_free id_hash sketch_10 [7; 3; 7; 11] = true)
    by (vm_compute; reflexivity).
  split; [ exact Hwf |]. split; [ exact Hfree |].
  exact (estimate_never_below_count id_hash sketch_10 7 [7; 3; 7; 11] Hwf Hfree).
Defined.

Lemma estimate_counts_own_accesses_witness :
  wf_table (m_table (exec (record_access id_hash 7) sketch_10)) /\
  aging_free id_hash (exec (record_access id_hash 7) sketch_10) [4; 7] = true /\
  (forall t', t' ∈ [4; 7] ->
     t' = 7 \/ collide id_hash (exec (record_access id_hash 7) sketch_10) 7 t' = false) /\
  get_frequency id_hash (run id_hash [4; 7] (exec (record_access id_hash 7) sketch_10)) 7
  = Z.min 15 (get_frequency id_hash (exec (record_access id_hash 7) sketch_10) 7
              + times_recorded 7 [4; 7]).
Proof.
  assert (Hwf : wf_table (m_table (exec (record_access id_hash 7) sketch_10)))
    by (apply record_access_wf_table; wf_by_computation).
  assert (Hfree : aging_free id_hash (exec (record_access id_hash 7) sketch_10) [4; 7] = true)
    by (vm_compute; reflexivity).
  assert (Hcol : forall t', t' ∈ [4; 7] ->
            t' = 7 \/ collide id_hash (exec (record_access id_hash 7) sketch_10) 7 t' = false).
  { intros t' Hin. rewrite !elem_of_cons, elem_of_nil in Hin.
    destruct Hin as [-> | [-> | []]];
      [ right; vm_compute; reflexivity | left; reflexivity ]. }
  split; [ exact Hwf |]. split; [ exact Hfree |]. split; [ exact Hcol |].
  exact (estimate_counts_own_accesses id_hash _ 7 [4; 7] Hwf Hfree Hcol).
Defined.

Lemma constructed_sketch_is_empty_witness :
  10 <= INT_MAX /\
  construct 5 10 = Returned sketch_10 /\
  0 <= 2 < table_size sketch_10 /\
  construct 9 10 = Returned sketch_10 /\
  get_frequency id_hash sketch_10 3 = 0.
Proof.
  assert (Hmax : 10 <= INT_MAX) by (unfold INT_MAX; lia).
  assert (Hc : construct 5 10 = Returned sketch_10) by reflexivity.
  assert (Hn : 0 <= 2 < table_size sketch_10) by (unfold table_size; simpl; lia).
  destruct (constructed_sketch_is_empty id_hash 5 9 10 sketch_10 3 2 Hmax Hc Hn)
    as (Hg & _ & _ & Hf & _).
  split; [ exact Hmax |]. split; [ exact Hc |]. split; [ exact Hn |].
  split; [ exact Hg | exact Hf ].
Defined.

Lemma change_capacity_resizes_in_place_witness :
  0 < 10 <= INT_MAX /\
  wf_table (m_table sketch_1_nine) /\
  0 <= 5 < get_nearest_power_of_two 10 /\
  table_at (exec (change_capacity 10) sketch_1_nine) 5 = 0 /\
  exec (change_capacity 10) (exec (change_capacity 10) sketch_1_nine)
  = exec (change_capacity 10) sketch_1_nine.
Proof.
  assert (Hcap : 0 < 10 <= INT_MAX) by (unfold INT_MAX; lia).
  assert (Hwf : wf_table (m_table sketch_1_nine)) by wf_by_computation.
  assert (Hn : 0 <= 5 < get_nearest_power_of_two 10) by (vm_compute; split; congruence).
  destruct (change_capacity_resizes_in_place 10 sketch_1_nine 5 Hcap Hwf Hn)
    as (_ & _ & _ & _ & Hnew & _ & Hidem).
  split; [ exact Hcap |]. split; [ exact Hwf |]. split; [ exact Hn |].
  split; [ apply Hnew; unfold table_size; simpl; lia | exact Hidem ].
Defined.
